(** * An items HTTP service: request handler over two item stores

    Shallow embedding of the two request handlers of the repository,
    [server.ts] (items kept in a module-level array with a [nextId]
    counter) and [server.sql.ts] (items kept in an SQLite table through
    better-sqlite3), and of the properties its specification states.

    Conventions of the embedding.
    - A JavaScript string is the list of its UTF-16 code units
      ([jsstring]); [length] counts code units, as [String.prototype.length].
    - A JavaScript number that the handlers use as an item id is an exact
      integer ([Z]); [parseInt] yields [None] for NaN.  The handlers only
      compare ids and add one to the counter, which is exact on integers
      below 2^53.
    - A request is handled to completion before the next one (the body is
      read whole, then the [end] callback runs).
    - A handler is a finite tree of store operations ([prog]); running it
      against a store gives the response and the next store.
    - The table of the relational server holds text as UTF-8: what is read
      back from it is the bound string with every unpaired surrogate
      replaced by U+FFFD ([Sql.stored]). *)

From Stdlib Require Import ZArith NArith List Bool String Ascii Lia.
From Stdlib Require Import Sorted.
Import ListNotations.

Local Open Scope string_scope.
Local Open Scope list_scope.
Local Open Scope Z_scope.

(* ================================================================= *)
(** ** JavaScript strings *)

Module JsString.

(** A string is a sequence of UTF-16 code units. *)
Definition jsstring := list N.

(** The code units of an ASCII literal of the source. *)
Definition lit (s : string) : jsstring :=
  map N_of_ascii (list_ascii_of_string s).

(** [a === b] on strings. *)
Fixpoint eqb (a b : jsstring) : bool :=
  match a, b with
  | [], [] => true
  | x :: a', y :: b' => (x =? y)%N && eqb a' b'
  | _, _ => false
  end.

(** ECMAScript WhiteSpace and LineTerminator code points: TAB, LF, VT, FF,
    CR, SP, NBSP, U+1680, U+2000..U+200A, U+2028, U+2029, U+202F, U+205F,
    U+3000 and U+FEFF.  [String.prototype.trim] and [parseInt] strip
    exactly these. *)
Definition isWhiteSpace (c : N) : bool :=
  (existsb (N.eqb c)
     [9; 10; 11; 12; 13; 32; 160; 5760; 8232; 8233; 8239; 8287; 12288; 65279]
   || ((8192 <=? c) && (c <=? 8202)))%N.

Fixpoint trimStart (s : jsstring) : jsstring :=
  match s with
  | c :: t => if isWhiteSpace c then trimStart t else s
  | [] => []
  end.

Definition trimEnd (s : jsstring) : jsstring := rev (trimStart (rev s)).

(** [String.prototype.trim]. *)
Definition trim (s : jsstring) : jsstring := trimEnd (trimStart s).

(** [String.prototype.startsWith]. *)
Fixpoint startsWith (s prefix : jsstring) {struct prefix} : bool :=
  match prefix, s with
  | [], _ => true
  | p :: prefix', c :: s' => (c =? p)%N && startsWith s' prefix'
  | _ :: _, [] => false
  end.

(** [String.prototype.split] with a one-character separator. *)
Fixpoint split (sep : N) (s : jsstring) : list jsstring :=
  match s with
  | [] => [[]]
  | c :: t =>
      if (c =? sep)%N then [] :: split sep t
      else match split sep t with
           | h :: r => (c :: h) :: r
           | [] => [[c]]
           end
  end.

Definition slash : N := 47.

(** Surrogate code units: high U+D800..U+DBFF, low U+DC00..U+DFFF. *)
Definition isHigh (c : N) : bool := ((55296 <=? c) && (c <=? 56319))%N.
Definition isLow (c : N) : bool := ((56320 <=? c) && (c <=? 57343))%N.

(** The string after a passage through UTF-8, as [String.prototype.toWellFormed]
    gives it: a high surrogate followed by a low one is a pair and stays,
    every other surrogate becomes U+FFFD. *)
Fixpoint toWellFormed (s : jsstring) : jsstring :=
  match s with
  | [] => []
  | c :: t =>
      if isHigh c then
        match t with
        | d :: t' =>
            if isLow d then c :: d :: toWellFormed t'
            else 65533%N :: toWellFormed t
        | [] => [65533%N]
        end
      else if isLow c then 65533%N :: toWellFormed t
      else c :: toWellFormed t
  end.

End JsString.
Import JsString.
Arguments lit : simpl never.

(* ================================================================= *)
(** ** parseInt *)

Module Number.

(** Value of a code unit as a digit of the given radix (10 or 16). *)
Definition digitValue (radix : Z) (c : N) : option Z :=
  let c := Z.of_N c in
  if (48 <=? c) && (c <=? 57) then Some (c - 48)
  else if (radix =? 16) && (97 <=? c) && (c <=? 102) then Some (c - 87)
  else if (radix =? 16) && (65 <=? c) && (c <=? 70) then Some (c - 55)
  else None.

(** Longest prefix of radix digits, accumulated most significant first;
    [None] when the prefix is empty. *)
Fixpoint digits (radix : Z) (acc : option Z) (s : jsstring) : option Z :=
  match s with
  | [] => acc
  | c :: t =>
      match digitValue radix c with
      | Some d =>
          digits radix
            (Some (match acc with Some a => a * radix + d | None => d end)) t
      | None => acc
      end
  end.

(** [parseInt(s)] without a radix argument: strip leading white space,
    an optional sign, then a [0x]/[0X] prefix (which selects radix 16),
    and read the longest digit prefix.  [None] is NaN. *)
Definition parseInt (s : jsstring) : option Z :=
  let s1 := trimStart s in
  let '(sign, s2) :=
    match s1 with
    | c :: t => if (c =? 45)%N then (-1, t)
                else if (c =? 43)%N then (1, t) else (1, s1)
    | [] => (1, s1)
    end in
  let '(radix, s3) :=
    match s2 with
    | z :: x :: t =>
        if (z =? 48)%N && ((x =? 120)%N || (x =? 88)%N) then (16, t)
        else (10, s2)
    | _ => (10, s2)
    end in
  match digits radix None s3 with
  | Some n => Some (sign * n)
  | None => None
  end.

(** Decimal digits of a positive integer, most significant first, as
    [Number.prototype.toString] writes them in a template literal. *)
Fixpoint decimalFuel (fuel : nat) (n : Z) (acc : jsstring) : jsstring :=
  match fuel with
  | O => acc
  | S f =>
      let acc' := Z.to_N (48 + n mod 10) :: acc in
      if n <? 10 then acc' else decimalFuel f (n / 10) acc'
  end.

Definition decimal (n : Z) : jsstring :=
  decimalFuel (S (Z.to_nat (Z.log2 n))) n [].

End Number.
Import Number.

(* ================================================================= *)
(** ** JSON values *)

(** A value as [JSON.parse] returns it and as [JSON.stringify] prints it.
    An object is the ordered list of its own properties.  A number is
    an integer here: the handlers test a parsed number for zero only, and
    print item ids only. *)
#[warnings="-register-all"]
Inductive json : Type :=
| JNull
| JBool (b : bool)
| JNum (n : Z)
| JStr (s : jsstring)
| JArr (elems : list json)
| JObj (fields : list (jsstring * json)).

(** A JavaScript value of the handler: [None] is [undefined]. *)
Definition value := option json.

(** ToBoolean. *)
Definition truthy (v : value) : bool :=
  match v with
  | None => false
  | Some JNull => false
  | Some (JBool b) => b
  | Some (JNum n) => negb (n =? 0)
  | Some (JStr s) => negb (eqb s [])
  | Some (JArr _) => true
  | Some (JObj _) => true
  end.

Fixpoint lookup (key : jsstring) (fields : list (jsstring * json)) : value :=
  match fields with
  | [] => None
  | (k, v) :: rest => if eqb k key then Some v else lookup key rest
  end.

(** Property read [data.key] for the keys [name] and [description]: only
    an object parsed from JSON can own them; on primitives and arrays the
    read yields [undefined]. *)
Definition get (data : value) (key : jsstring) : value :=
  match data with
  | Some (JObj fields) => lookup key fields
  | _ => None
  end.

(** [typeof v === "string"]. *)
Definition isString (v : value) : bool :=
  match v with Some (JStr _) => true | _ => false end.

(** [v.length] and [v.trim()] of a value already known to be a string; on
    anything else the source would throw a TypeError ([None]). *)
Definition strOf (v : value) : option jsstring :=
  match v with Some (JStr s) => Some s | _ => None end.

(* ================================================================= *)
(** ** Items, requests, responses *)

Record Item := mkItem { id : Z; name : jsstring; description : jsstring }.

(** The body of a request as the handlers see it: the empty string, a
    text that [JSON.parse] rejects with a SyntaxError, or a text that
    [JSON.parse] turns into a value. *)
Inductive payload :=
| Empty
| Unparsable
| Json (v : json).

Record request := mkRequest {
  method : string;
  pathname : option jsstring;   (* [url.parse(req.url).pathname], possibly null *)
  body : payload
}.

Record response := mkResponse {
  status : Z;
  headers : list (string * string);
  content : option json          (* the value given to [JSON.stringify] *)
}.

Definition cors : list (string * string) :=
  [ ("Access-Control-Allow-Origin", "*");
    ("Access-Control-Allow-Methods", "GET, POST, PUT, DELETE");
    ("Access-Control-Allow-Headers", "Content-Type") ].

(** [res.writeHead(code, {"Content-Type": "application/json"});
    res.end(JSON.stringify(v))] after the three [setHeader] calls. *)
Definition reply (code : Z) (v : json) : response :=
  mkResponse code (cors ++ [("Content-Type", "application/json")]) (Some v).

Definition itemJson (it : Item) : json :=
  JObj [ (lit "id", JNum (id it));
         (lit "name", JStr (name it));
         (lit "description", JStr (description it)) ].

Definition errorJson (msg : string) : json :=
  JObj [ (lit "error", JStr (lit msg)) ].

Definition validationJson (errors : list string) : json :=
  JObj [ (lit "error", JStr (lit "Validation failed"));
         (lit "details", JArr (map (fun e => JStr (lit e)) errors)) ].

Definition deletedJson (it : Item) : json :=
  JObj [ (lit "message", JStr (lit "Item deleted")); (lit "item", itemJson it) ].

Definition optionsResponse : response := mkResponse 200 cors None.
Definition invalidId : response := reply 400 (errorJson "Invalid item ID").
Definition itemNotFound : response := reply 404 (errorJson "Item not found").
Definition invalidJson : response := reply 400 (errorJson "Invalid JSON").
Definition notFound : response := reply 404 (errorJson "Not found").
Definition internalError : response :=
  reply 500 (errorJson "Internal server error").

(* ================================================================= *)
(** ** Input validation (the same helper in both servers) *)

Record validation := mkValidation { isValid : bool; errors : list string }.

Definition lengthOver (v : value) (limit : nat) : bool :=
  match strOf v with
  | Some s => Nat.ltb limit (List.length s)
  | None => false
  end.

Definition blank (v : value) : bool :=
  match strOf v with
  | Some s => Nat.eqb (List.length (trim s)) 0
  | None => false
  end.

Definition validateItemInput (data : value) : validation :=
  if negb (truthy data) then
    mkValidation false ["Request body is required"]
  else
    let e1 :=
      if negb (truthy (get data (lit "name")))
         || negb (isString (get data (lit "name")))
         || blank (get data (lit "name"))
      then ["Name is required and must be a non-empty string"] else [] in
    let e2 :=
      if negb (truthy (get data (lit "description")))
         || negb (isString (get data (lit "description")))
         || blank (get data (lit "description"))
      then ["Description is required and must be a non-empty string"] else [] in
    let e3 :=
      if truthy (get data (lit "name"))
         && isString (get data (lit "name"))
         && lengthOver (get data (lit "name")) 100
      then ["Name must be 100 characters or less"] else [] in
    let e4 :=
      if truthy (get data (lit "description"))
         && isString (get data (lit "description"))
         && lengthOver (get data (lit "description")) 500
      then ["Description must be 500 characters or less"] else [] in
    let errors := e1 ++ e2 ++ e3 ++ e4 in
    mkValidation (Nat.eqb (List.length errors) 0) errors.

(** [body ? JSON.parse(body) : undefined]; [None] when [JSON.parse] throws. *)
Definition parseBody (b : payload) : option value :=
  match b with
  | Empty => Some None
  | Unparsable => None
  | Json v => Some (Some v)
  end.

(** [parseInt(path.split("/")[2])]; a missing element is [undefined],
    which [parseInt] reads as the text "undefined": NaN. *)
Definition idOfPath (path : jsstring) : option Z :=
  match nth_error (split slash path) 2 with
  | Some seg => parseInt seg
  | None => None
  end.

(** The same on the pathname of a request; the id routes are entered only
    when [path?.startsWith("/items/")] holds, so [path] is not null there. *)
Definition segmentId (path : option jsstring) : option Z :=
  match path with
  | Some p => idOfPath p
  | None => None
  end.

Definition pathIs (p : option jsstring) (s : string) : bool :=
  match p with Some p => eqb p (lit s) | None => false end.

Definition pathStartsWith (p : option jsstring) (s : string) : bool :=
  match p with Some p => startsWith p (lit s) | None => false end.

(* ================================================================= *)
(** ** Handlers as trees of store operations *)

Section Prog.
Context {E : Type -> Type}.

(** A handler either answers, or performs a store operation [e] and
    continues with its result. *)
Inductive prog (A : Type) : Type :=
| Ret (a : A)
| Vis (X : Type) (e : E X) (k : X -> prog A).

Arguments Ret {A} a.
Arguments Vis {A X} e k.

Fixpoint bind {A B} (m : prog A) (f : A -> prog B) : prog B :=
  match m with
  | Ret a => f a
  | Vis e k => Vis e (fun x => bind (k x) f)
  end.

Definition trigger {X} (e : E X) : prog X := Vis e Ret.

(** Running a tree against a store of type [St]. *)
Fixpoint run {St A} (h : forall X, E X -> St -> X * St) (m : prog A) (s : St)
  : A * St :=
  match m with
  | Ret a => (a, s)
  | Vis e k => let '(x, s') := h _ e s in run h (k x) s'
  end.

(** The number of store operations performed on a run. *)
Fixpoint calls {St A} (h : forall X, E X -> St -> X * St) (m : prog A)
  (s : St) : nat :=
  match m with
  | Ret _ => O
  | Vis e k => let '(x, s') := h _ e s in S (calls h (k x) s')
  end.
End Prog.

Arguments prog E A : clear implicits.
Arguments Ret {E A} a.
Arguments Vis {E A X} e k.

Notation "x <- m ;; k" := (bind m (fun x => k))
  (at level 61, m at next level, right associativity).
Notation "m ;;; k" := (bind m (fun _ => k))
  (at level 61, right associativity).

(** [Array.prototype.find] and [findIndex] ([None] is -1). *)
Fixpoint findIndex {A} (p : A -> bool) (l : list A) : option nat :=
  match l with
  | [] => None
  | x :: t => if p x then Some O else option_map S (findIndex p t)
  end.

Definition hasId (k : Z) (it : Item) : bool := id it =? k.

(** The try-block shared by POST and PUT up to the point where the two
    trimmed fields are known: [inl r] answers [r] at once. *)
Definition validated (b : payload) : response + value :=
  match parseBody b with
  | None => inl invalidJson
  | Some data =>
      let validation := validateItemInput data in
      if negb (isValid validation)
      then inl (reply 400 (validationJson (errors validation)))
      else inr data
  end.

(* ================================================================= *)
(** ** The in-memory server ([server.ts]) *)

Module Mem.

Record store := mkStore { items : list Item; nextId : Z }.

(** [let items = []; let nextId = 1]. *)
Definition initial : store := mkStore [] 1.

Variant memE : Type -> Type :=
| ReadItems : memE (list Item)                (* reading [items] *)
| PostIncrNextId : memE Z                     (* [nextId++] *)
| Push (it : Item) : memE unit                (* [items.push(it)] *)
| Assign (index : nat) (it : Item) : memE unit  (* [items[index] = it] *)
| ReadAt (index : nat) : memE (option Item)   (* [items[index]] *)
| Splice (index : nat) : memE (list Item).    (* [items.splice(index, 1)] *)

(** [l[index] = it].  The handler only assigns at an index that
    [findIndex] just returned, which lies inside the array; an index at or
    past the end, which JavaScript would fill up to with holes, appends. *)
Fixpoint assign (index : nat) (it : Item) (l : list Item) : list Item :=
  match l, index with
  | [], _ => [it]
  | _ :: t, O => it :: t
  | x :: t, S i => x :: assign i it t
  end.

(** [l.splice(index, 1)]: the removed elements and the remaining array. *)
Fixpoint splice (index : nat) (l : list Item) : list Item * list Item :=
  match l, index with
  | [], _ => ([], [])
  | x :: t, O => ([x], t)
  | x :: t, S i => let '(removed, rest) := splice i t in (removed, x :: rest)
  end.

Definition exec (X : Type) (e : memE X) (s : store) : X * store :=
  match e in memE X return X * store with
  | ReadItems => (items s, s)
  | PostIncrNextId => (nextId s, mkStore (items s) (nextId s + 1))
  | Push it => (tt, mkStore (items s ++ [it]) (nextId s))
  | Assign index it => (tt, mkStore (assign index it (items s)) (nextId s))
  | ReadAt index => (nth_error (items s) index, s)
  | Splice index =>
      let '(removed, rest) := splice index (items s) in
      (removed, mkStore rest (nextId s))
  end.

(** READ - GET /items (get all). *)
Definition listAll : prog memE response :=
  items <- trigger ReadItems ;;
  Ret (reply 200 (JArr (map itemJson items))).

(** READ - GET /items/:id (get one); [id] is the result of [parseInt]. *)
Definition readOne (id : option Z) : prog memE response :=
  match id with
  | None => Ret invalidId
  | Some id =>
      items <- trigger ReadItems ;;
      match find (hasId id) items with
      | Some item => Ret (reply 200 (itemJson item))
      | None => Ret itemNotFound
      end
  end.

(** CREATE - POST /items. *)
Definition create (b : payload) : prog memE response :=
  match validated b with
  | inl r => Ret r
  | inr data =>
      newId <- trigger PostIncrNextId ;;
      match strOf (get data (lit "name")),
            strOf (get data (lit "description")) with
      | Some n, Some d =>
          let newItem := mkItem newId (trim n) (trim d) in
          trigger (Push newItem) ;;;
          Ret (reply 201 (itemJson newItem))
      | _, _ => Ret invalidJson       (* a TypeError, caught *)
      end
  end.

(** UPDATE - PUT /items/:id. *)
Definition update (id : option Z) (b : payload) : prog memE response :=
  match id with
  | None => Ret invalidId
  | Some id =>
      items <- trigger ReadItems ;;
      match findIndex (hasId id) items with
      | None => Ret itemNotFound
      | Some itemIndex =>
          match validated b with
          | inl r => Ret r
          | inr data =>
              match strOf (get data (lit "name")),
                    strOf (get data (lit "description")) with
              | Some n, Some d =>
                  trigger (Assign itemIndex (mkItem id (trim n) (trim d))) ;;;
                  stored <- trigger (ReadAt itemIndex) ;;
                  Ret (mkResponse 200
                         (cors ++ [("Content-Type", "application/json")])
                         (option_map itemJson stored))
              | _, _ => Ret invalidJson   (* a TypeError, caught *)
              end
          end
      end
  end.

(** DELETE - DELETE /items/:id. *)
Definition remove (id : option Z) : prog memE response :=
  match id with
  | None => Ret invalidId
  | Some id =>
      items <- trigger ReadItems ;;
      match findIndex (hasId id) items with
      | None => Ret itemNotFound
      | Some itemIndex =>
          removed <- trigger (Splice itemIndex) ;;
          Ret (reply 200
                 (match removed with
                  | deletedItem :: _ => deletedJson deletedItem
                  | [] => JObj [(lit "message", JStr (lit "Item deleted"))]
                  end))
      end
  end.

(** The request listener: the routes in the order the source tests them. *)
Definition handler (req : request) : prog memE response :=
  if (method req =? "OPTIONS")%string then Ret optionsResponse
  else
    let path := pathname req in
    let method := method req in
    if (method =? "GET")%string && pathIs path "/items" then listAll
    else if (method =? "GET")%string && pathStartsWith path "/items/" then
      readOne (segmentId path)
    else if (method =? "POST")%string && pathIs path "/items" then
      create (body req)
    else if (method =? "PUT")%string && pathStartsWith path "/items/" then
      update (segmentId path) (body req)
    else if (method =? "DELETE")%string && pathStartsWith path "/items/" then
      remove (segmentId path)
    else Ret notFound.

(** One request against the store. *)
Definition step (req : request) (s : store) : response * store :=
  run exec (handler req) s.

(** [resetMyServerData]. *)
Definition resetMyServerData (s : store) : store := mkStore [] 1.

End Mem.

(* ================================================================= *)
(** ** The relational server ([server.sql.ts]) *)

Module Sql.

(** The table [items (id INTEGER PRIMARY KEY AUTOINCREMENT, name, description)]
    and the [seq] that [sqlite_sequence] holds for it (0 when it holds no
    row for the table). *)
Record database := mkDatabase { rows : list Item; sequence : Z }.

(** An item as the table holds it.  better-sqlite3 binds a JavaScript
    string as UTF-8 text and reads a TEXT column back from UTF-8, so an
    unpaired surrogate of the bound string is held, and given back, as
    U+FFFD. *)
Definition stored (it : Item) : Item :=
  mkItem (id it) (toWellFormed (name it)) (toWellFormed (description it)).

(** A database file that has never held an item. *)
Definition empty : database := mkDatabase [] 0.

(** Result of a call into better-sqlite3: a value, or an exception. *)
Variant outcome (X : Type) : Type :=
| Done (x : X)
| Threw.
Arguments Done {X} x.
Arguments Threw {X}.

Variant sqlE : Type -> Type :=
(* SELECT * FROM items ORDER BY id *)
| SelectAll : sqlE (outcome (list Item))
(* SELECT * FROM items WHERE id = ? *)
| SelectById (id : Z) : sqlE (outcome (option Item))
(* INSERT INTO items (name, description) VALUES (?, ?); lastInsertRowid *)
| Insert (name description : jsstring) : sqlE (outcome Z)
(* UPDATE items SET name = ?, description = ? WHERE id = ? *)
| Update (name description : jsstring) (id : Z) : sqlE (outcome unit)
(* DELETE FROM items WHERE id = ? *)
| DeleteById (id : Z) : sqlE (outcome unit).

Fixpoint insertById (it : Item) (l : list Item) : list Item :=
  match l with
  | [] => [it]
  | x :: t => if id it <=? id x then it :: l else x :: insertById it t
  end.

(** ORDER BY id. *)
Definition orderById (l : list Item) : list Item :=
  fold_right insertById [] l.

Definition maxId (l : list Item) : Z := fold_right Z.max 0 (map id l).

(** AUTOINCREMENT: one more than the largest rowid the table ever held. *)
Definition nextRowid (db : database) : Z :=
  Z.max (maxId (rows db)) (sequence db) + 1.

(** The collaborator that never fails. *)
Definition exec (X : Type) (e : sqlE X) (db : database) : X * database :=
  match e in sqlE X return X * database with
  | SelectAll => (Done (orderById (rows db)), db)
  | SelectById k => (Done (find (hasId k) (rows db)), db)
  | Insert n d =>
      let rowid := nextRowid db in
      (Done rowid, mkDatabase (rows db ++ [stored (mkItem rowid n d)]) rowid)
  | Update n d k =>
      (Done tt,
       mkDatabase
         (map (fun it => if hasId k it then stored (mkItem (id it) n d) else it)
              (rows db))
         (sequence db))
  | DeleteById k =>
      (Done tt,
       mkDatabase (filter (fun it => negb (hasId k it)) (rows db)) (sequence db))
  end.

(** READ - GET /items (get all). *)
Definition listAll : prog sqlE response :=
  r <- trigger SelectAll ;;
  match r with
  | Done items => Ret (reply 200 (JArr (map itemJson items)))
  | Threw => Ret internalError
  end.

(** READ - GET /items/:id (get one). *)
Definition readOne (id : option Z) : prog sqlE response :=
  match id with
  | None => Ret invalidId
  | Some id =>
      r <- trigger (SelectById id) ;;
      match r with
      | Done (Some item) => Ret (reply 200 (itemJson item))
      | Done None => Ret itemNotFound
      | Threw => Ret internalError
      end
  end.

(** CREATE - POST /items. *)
Definition create (b : payload) : prog sqlE response :=
  match validated b with
  | inl r => Ret r
  | inr data =>
      match strOf (get data (lit "name")),
            strOf (get data (lit "description")) with
      | Some n, Some d =>
          r <- trigger (Insert (trim n) (trim d)) ;;
          match r with
          | Done lastInsertRowid =>
              Ret (reply 201
                     (itemJson (mkItem lastInsertRowid (trim n) (trim d))))
          | Threw => Ret internalError
          end
      | _, _ => Ret internalError     (* a TypeError, not a SyntaxError *)
      end
  end.

(** UPDATE - PUT /items/:id. *)
Definition update (id : option Z) (b : payload) : prog sqlE response :=
  match id with
  | None => Ret invalidId
  | Some id =>
      (* First check if item exists *)
      r <- trigger (SelectById id) ;;
      match r with
      | Threw => Ret internalError
      | Done None => Ret itemNotFound
      | Done (Some existingItem) =>
          match validated b with
          | inl r => Ret r
          | inr data =>
              match strOf (get data (lit "name")),
                    strOf (get data (lit "description")) with
              | Some n, Some d =>
                  u <- trigger (Update (trim n) (trim d) id) ;;
                  match u with
                  | Done _ =>
                      Ret (reply 200 (itemJson (mkItem id (trim n) (trim d))))
                  | Threw => Ret internalError
                  end
              | _, _ => Ret internalError
              end
          end
      end
  end.

(** DELETE - DELETE /items/:id. *)
Definition remove (id : option Z) : prog sqlE response :=
  match id with
  | None => Ret invalidId
  | Some id =>
      (* Get item before deletion *)
      r <- trigger (SelectById id) ;;
      match r with
      | Threw => Ret internalError
      | Done (Some item) =>
          u <- trigger (DeleteById id) ;;
          match u with
          | Done _ => Ret (reply 200 (deletedJson item))
          | Threw => Ret internalError
          end
      | Done None => Ret itemNotFound
      end
  end.

(** The request listener: the routes in the order the source tests them. *)
Definition handler (req : request) : prog sqlE response :=
  if (method req =? "OPTIONS")%string then Ret optionsResponse
  else
    let path := pathname req in
    let method := method req in
    if (method =? "GET")%string && pathIs path "/items" then listAll
    else if (method =? "GET")%string && pathStartsWith path "/items/" then
      readOne (segmentId path)
    else if (method =? "POST")%string && pathIs path "/items" then
      create (body req)
    else if (method =? "PUT")%string && pathStartsWith path "/items/" then
      update (segmentId path) (body req)
    else if (method =? "DELETE")%string && pathStartsWith path "/items/" then
      remove (segmentId path)
    else Ret notFound.

Definition step (req : request) (db : database) : response * database :=
  run exec (handler req) db.

(** [resetMyServerData]: [DELETE FROM items], then
    [DELETE FROM sqlite_sequence WHERE name = 'items'], when the module
    holds an open database. *)
Definition resetMyServerData (db : option database) : option database :=
  match db with
  | Some _ => Some (mkDatabase [] 0)
  | None => None
  end.

End Sql.

(** Handling a sequence of requests, one after the other. *)
Fixpoint serve {St} (step : request -> St -> response * St)
  (reqs : list request) (s : St) : list response * St :=
  match reqs with
  | [] => ([], s)
  | r :: rest =>
      let '(resp, s1) := step r s in
      let '(resps, s2) := serve step rest s1 in
      (resp :: resps, s2)
  end.

(* ================================================================= *)
(** ** Notions used by the statements *)

(** Well-formed requests of the statements. *)
Definition objectBody (fields : list (jsstring * json)) : payload :=
  Json (JObj fields).

Definition postItems (b : payload) : request :=
  mkRequest "POST" (Some (lit "/items")) b.

Definition getItems : request := mkRequest "GET" (Some (lit "/items")) Empty.

(** A request on [/items/<rest>]. *)
Definition onItem (m : string) (rest : jsstring) (b : payload) : request :=
  mkRequest m (Some (lit "/items/" ++ rest)) b.

(** The [:id] segment of [/items/<rest>]: [rest] up to its first slash. *)
Definition idSegment (rest : jsstring) : jsstring := hd [] (split slash rest).

(** The methods of the id-based routes. *)
Definition idMethod (m : string) : Prop := m = "GET" \/ m = "PUT" \/ m = "DELETE".

(** The length rules as the validation helper applies them: the field must
    not be blank after trimming, and the field as sent must fit the limit. *)
Definition fits (limit : nat) (s : jsstring) : Prop :=
  (1 <= List.length (trim s))%nat /\ (List.length s <= limit)%nat.

(** The length rules as the specification words them: on the trimmed text. *)
Definition fitsTrimmed (limit : nat) (s : jsstring) : Prop :=
  (1 <= List.length (trim s) <= limit)%nat.

(** The text of a field that validation accepted. *)
Definition fieldText (data : value) (key : string) : jsstring :=
  match strOf (get data (lit key)) with Some s => s | None => [] end.

(** The item built from an accepted body. *)
Definition itemOf (k : Z) (data : value) : Item :=
  mkItem k (trim (fieldText data "name")) (trim (fieldText data "description")).

(** Ids strictly increasing along the list, all in [lo, hi). *)
Fixpoint increasing (lo : Z) (l : list Item) (hi : Z) : Prop :=
  match l with
  | [] => lo <= hi
  | x :: t => lo <= id x /\ increasing (id x + 1) t hi
  end.

(** The invariant of the in-memory store. *)
Definition consistent (s : Mem.store) : Prop :=
  increasing 1 (Mem.items s) (Mem.nextId s).

(** The two stores hold the same items and will assign the same next id. *)
Definition related (s : Mem.store) (db : Sql.database) : Prop :=
  Mem.items s = Sql.rows db /\
  Mem.nextId s = Sql.sequence db + 1 /\
  consistent s.

(** A text without unpaired surrogates: UTF-8 storage gives it back as it is. *)
Definition cleanText (t : jsstring) : Prop := toWellFormed t = t.

(** A request whose body, if validation accepts it, carries a name and a
    description that are free of unpaired surrogates once trimmed. *)
Definition cleanRequest (req : request) : Prop :=
  forall data,
    validated (body req) = inr data ->
    cleanText (trim (fieldText data "name")) /\
    cleanText (trim (fieldText data "description")).

(** The table holds the items of the array, as UTF-8 text holds them, and
    will assign the same next id. *)
Definition tracks (s : Mem.store) (db : Sql.database) : Prop :=
  Sql.rows db = map Sql.stored (Mem.items s) /\
  Mem.nextId s = Sql.sequence db + 1 /\
  consistent s.

(** Two responses with the same status, headers and assigned id. *)
Definition similar (r1 r2 : response) : Prop :=
  status r1 = status r2 /\ headers r1 = headers r2 /\
  (status r1 = 201 -> r1 = r2).

(** Two code units that are both white space or both not. *)
Definition sameKind (a b : N) : Prop := isWhiteSpace a = isWhiteSpace b.


(** Rows in non-decreasing id order. *)
Definition idOrdered (l : list Item) : Prop :=
  StronglySorted (fun a b => id a <= id b) l.

(** The store reached from the initial one by a sequence of requests. *)
Definition reached (reqs : list request) : Mem.store :=
  snd (serve Mem.step reqs Mem.initial).

Definition reachedSql (reqs : list request) : Sql.database :=
  snd (serve Sql.step reqs Sql.empty).

(** A body that the handlers take as missing: the empty text, or JSON
    text for a falsy value. *)
Definition missing (b : payload) : bool :=
  match parseBody b with
  | Some data => negb (truthy data)
  | None => false
  end.

Definition bodyRequired : response :=
  reply 400 (validationJson ["Request body is required"]).

(** A space followed by one hundred letters [a]. *)
Definition paddedName : jsstring := 32%N :: repeat 97%N 100.

Definition paddedBody : payload :=
  objectBody [ (lit "name", JStr paddedName); (lit "description", JStr (lit "x")) ].

Definition widgetBody : payload :=
  objectBody [ (lit "name", JStr (lit " Widget "));
               (lit "description", JStr (lit "A thing")) ].

(** A store of three items, for the examples. *)
Definition threeItems : list Item :=
  [ mkItem 1 (lit "a") (lit "x"); mkItem 2 (lit "b") (lit "y");
    mkItem 3 (lit "c") (lit "z") ].

(** The id that a 201 response reports as assigned. *)
Definition assigned (r : response) : option Z :=
  if status r =? 201 then
    match content r with
    | Some (JObj ((_, JNum n) :: _)) => Some n
    | _ => None
    end
  else None.

Fixpoint assignedIds (rs : list response) : list Z :=
  match rs with
  | [] => []
  | r :: rest =>
      match assigned r with
      | Some n => n :: assignedIds rest
      | None => assignedIds rest
      end
  end.

(** [start, start+1, ..., start+n-1]. *)
Fixpoint zrange (start : Z) (n : nat) : list Z :=
  match n with
  | O => []
  | S n' => start :: zrange (start + 1) n'
  end.

(* ================================================================= *)
(** ** Notions used by the further properties *)

(** The headers of every JSON answer. *)
Definition jsonHeaders : list (string * string) :=
  cors ++ [("Content-Type", "application/json")].

(** A JSON answer with one of the given status codes. *)
Definition jsonAnswer (codes : list Z) (r : response) : Prop :=
  headers r = jsonHeaders /\ In (status r) codes.

(** Every answer that a handler can give satisfies [P], whatever the store
    operations return. *)
Fixpoint answers {E : Type -> Type} (P : response -> Prop)
  (m : prog E response) : Prop :=
  match m with
  | Ret r => P r
  | Vis e k => forall x, answers P (k x)
  end.

(** The handler performs at most [n] store operations, whatever they
    return. *)
Fixpoint within {E : Type -> Type} (n : nat) (m : prog E response) : Prop :=
  match m with
  | Ret _ => True
  | Vis e k =>
      match n with
      | O => False
      | S n' => forall x, within n' (k x)
      end
  end.

(** A collaborator whose every call throws and changes nothing. *)
Definition brokenExec (X : Type) (e : Sql.sqlE X) (db : Sql.database)
  : X * Sql.database :=
  match e in Sql.sqlE X return X * Sql.database with
  | Sql.SelectAll => (Sql.Threw, db)
  | Sql.SelectById _ => (Sql.Threw, db)
  | Sql.Insert _ _ => (Sql.Threw, db)
  | Sql.Update _ _ _ => (Sql.Threw, db)
  | Sql.DeleteById _ => (Sql.Threw, db)
  end.

(** What a test run does to a server: a request, or a call of
    [resetMyServerData] (the [beforeEach] hook of the test file). *)
Inductive event :=
| Request (r : request)
| Reset.

(** An event whose request, if any, is clean. *)
Definition cleanEvent (e : event) : Prop :=
  match e with
  | Request r => cleanRequest r
  | Reset => True
  end.

Definition memEvent (e : event) (s : Mem.store) : list response * Mem.store :=
  match e with
  | Request r => let '(resp, s') := Mem.step r s in ([resp], s')
  | Reset => ([], Mem.resetMyServerData s)
  end.

Definition sqlEvent (e : event) (db : Sql.database)
  : list response * Sql.database :=
  match e with
  | Request r => let '(resp, db') := Sql.step r db in ([resp], db')
  | Reset =>
      ([], match Sql.resetMyServerData (Some db) with
           | Some db' => db'
           | None => db
           end)
  end.

Fixpoint replay {St} (f : event -> St -> list response * St)
  (es : list event) (s : St) : list response * St :=
  match es with
  | [] => ([], s)
  | e :: rest =>
      let '(r1, s1) := f e s in
      let '(r2, s2) := replay f rest s1 in
      (r1 ++ r2, s2)
  end.

(** The items that successive accepted bodies create, from id [k] on. *)
Fixpoint createdFrom (k : Z) (datas : list value) : list Item :=
  match datas with
  | [] => []
  | d :: rest => itemOf k d :: createdFrom (k + 1) rest
  end.

(** A text without white space at either end. *)
Definition trimmed (s : jsstring) : Prop := trim s = s.

(** The shape of a stored item: a positive id, and a name and a
    description that are trimmed, non-empty and within 100 and 500
    characters. *)
Definition wellFormed (it : Item) : Prop :=
  1 <= id it /\
  trimmed (name it) /\ (1 <= List.length (name it) <= 100)%nat /\
  trimmed (description it) /\ (1 <= List.length (description it) <= 500)%nat.


(** A field value that passes the "required" rule: a string that is not
    blank. *)
Definition acceptableText (v : value) : Prop :=
  exists t, v = Some (JStr t) /\ (1 <= List.length (trim t))%nat.

(** A field value that breaks a length rule: a string of more than [limit]
    characters as sent. *)
Definition overlong (limit : nat) (v : value) : Prop :=
  exists t, v = Some (JStr t) /\ (limit < List.length t)%nat.

(** A code unit that is not a decimal digit. *)
Definition notDigit (c : N) : Prop := digitValue 10 c = None.

(** A text that does not start with a decimal digit. *)
Definition stops (rest : jsstring) : Prop :=
  match rest with
  | [] => True
  | c :: _ => notDigit c
  end.

(** A text that does not start with white space. *)
Definition noLead (l : jsstring) : Prop :=
  match l with
  | [] => True
  | c :: _ => isWhiteSpace c = false
  end.

(* ================================================================= *)
(** * Properties *)

(** ** Strings *)

Lemma eqb_eq a b : eqb a b = true <-> a = b.
Proof.
  revert b. induction a as [|x a IH]; destruct b as [|y b]; simpl;
    try (split; [discriminate | congruence]); try tauto.
  rewrite andb_true_iff, N.eqb_eq, IH. split.
  - intros [-> ->]. reflexivity.
  - intros H. inversion H. auto.
Qed.

Lemma eqb_refl a : eqb a a = true.
Proof. apply eqb_eq. reflexivity. Qed.

(** ** Validation *)

Section Validation.
Variable fields : list (jsstring * json).
Variables n d : jsstring.
Hypothesis Hname : lookup (lit "name") fields = Some (JStr n).
Hypothesis Hdescription : lookup (lit "description") fields = Some (JStr d).

Let data : value := Some (JObj fields).

Lemma blank_length (s : jsstring) :
  Nat.eqb (List.length (trim s)) 0 = false <-> (1 <= List.length (trim s))%nat.
Proof. rewrite Nat.eqb_neq. lia. Qed.

Lemma errors_strings :
  errors (validateItemInput data) =
    (if Nat.eqb (List.length (trim n)) 0
     then ["Name is required and must be a non-empty string"] else [])
    ++ (if Nat.eqb (List.length (trim d)) 0
        then ["Description is required and must be a non-empty string"] else [])
    ++ (if Nat.ltb 100 (List.length n)
        then ["Name must be 100 characters or less"] else [])
    ++ (if Nat.ltb 500 (List.length d)
        then ["Description must be 500 characters or less"] else []).
Proof.
  unfold validateItemInput, data, get. cbn [truthy negb].
  rewrite Hname, Hdescription.
  unfold blank, lengthOver. cbn [truthy isString strOf negb orb andb errors].
  destruct n as [|c n']; destruct d as [|c' d']; reflexivity.
Qed.

Lemma isValid_errors (v : value) :
  isValid (validateItemInput v) = Nat.eqb (List.length (errors (validateItemInput v))) 0.
Proof.
  unfold validateItemInput. destruct (negb (truthy v)); reflexivity.
Qed.

Lemma isValid_strings :
  isValid (validateItemInput data) = true <-> fits 100 n /\ fits 500 d.
Proof.
  rewrite isValid_errors, errors_strings. unfold fits.
  rewrite <- !blank_length.
  destruct (Nat.eqb (List.length (trim n)) 0);
    destruct (Nat.eqb (List.length (trim d)) 0);
    destruct (Nat.ltb_spec 100 (List.length n));
    destruct (Nat.ltb_spec 500 (List.length d)); simpl;
    split; intros; try discriminate; try reflexivity;
    repeat match goal with H : _ /\ _ |- _ => destruct H end;
    try discriminate; try lia; auto.
Qed.

Lemma validated_strings :
  (fits 100 n /\ fits 500 d -> validated (objectBody fields) = inr data) /\
  (~ (fits 100 n /\ fits 500 d) ->
   validated (objectBody fields) =
     inl (reply 400 (validationJson (errors (validateItemInput data))))).
Proof.
  unfold validated, objectBody, parseBody. fold data.
  destruct (isValid (validateItemInput data)) eqn:E; simpl; split; intros H;
    try reflexivity.
  - apply isValid_strings in E. contradiction.
  - apply isValid_strings in H. congruence.
Qed.

Lemma fieldText_strings :
  fieldText data "name" = n /\ fieldText data "description" = d.
Proof.
  unfold fieldText, data, get. rewrite Hname, Hdescription. auto.
Qed.
End Validation.

(** ** Routing *)

Lemma startsWith_app p pre :
  startsWith p pre = true <-> exists rest, p = pre ++ rest.
Proof.
  revert p. induction pre as [|c pre IH]; intros p; simpl.
  - split; eauto.
  - destruct p as [|x p].
    + split; [discriminate | intros [rest H]; discriminate].
    + rewrite andb_true_iff, N.eqb_eq, IH. split.
      * intros [-> [rest ->]]. eauto.
      * intros [rest H]. inversion H. eauto.
Qed.

Lemma split_nonempty sep s : split sep s <> [].
Proof.
  destruct s as [|c t]; simpl; [discriminate|].
  destruct (c =? sep)%N; [discriminate|].
  destruct (split sep t); discriminate.
Qed.

Lemma split_cons_other sep c t :
  (c =? sep)%N = false ->
  split sep (c :: t) = (c :: hd [] (split sep t)) :: tl (split sep t).
Proof.
  intros H. simpl. rewrite H.
  destruct (split sep t) eqn:E; [now apply split_nonempty in E | reflexivity].
Qed.

Lemma idOfPath_items rest :
  idOfPath (lit "/items/" ++ rest) = parseInt (idSegment rest).
Proof.
  unfold idOfPath, idSegment, lit. simpl.
  destruct (split slash rest) eqn:E; [now apply split_nonempty in E|].
  reflexivity.
Qed.

Lemma pathIs_items rest : pathIs (Some (lit "/items/" ++ rest)) "/items" = false.
Proof. reflexivity. Qed.

Lemma pathStartsWith_items rest :
  pathStartsWith (Some (lit "/items/" ++ rest)) "/items/" = true.
Proof. reflexivity. Qed.

Lemma pathStartsWith_inv p :
  pathStartsWith p "/items/" = true ->
  exists rest, p = Some (lit "/items/" ++ rest).
Proof.
  destruct p as [p|]; [|discriminate]. unfold pathStartsWith.
  intros H. apply startsWith_app in H. destruct H as [rest ->]. eauto.
Qed.

Section Routes.
Variables (rest : jsstring) (b : payload).

Lemma mem_route_get :
  Mem.handler (onItem "GET" rest b) = Mem.readOne (parseInt (idSegment rest)).
Proof.
  unfold Mem.handler, onItem. cbn [method pathname body segmentId].
  rewrite pathIs_items, pathStartsWith_items, idOfPath_items. reflexivity.
Qed.

Lemma mem_route_put :
  Mem.handler (onItem "PUT" rest b) = Mem.update (parseInt (idSegment rest)) b.
Proof.
  unfold Mem.handler, onItem. cbn [method pathname body segmentId].
  rewrite pathStartsWith_items, idOfPath_items. reflexivity.
Qed.

Lemma mem_route_delete :
  Mem.handler (onItem "DELETE" rest b) = Mem.remove (parseInt (idSegment rest)).
Proof.
  unfold Mem.handler, onItem. cbn [method pathname body segmentId].
  rewrite pathStartsWith_items, idOfPath_items. reflexivity.
Qed.

Lemma sql_route_get :
  Sql.handler (onItem "GET" rest b) = Sql.readOne (parseInt (idSegment rest)).
Proof.
  unfold Sql.handler, onItem. cbn [method pathname body segmentId].
  rewrite pathIs_items, pathStartsWith_items, idOfPath_items. reflexivity.
Qed.

Lemma sql_route_put :
  Sql.handler (onItem "PUT" rest b) = Sql.update (parseInt (idSegment rest)) b.
Proof.
  unfold Sql.handler, onItem. cbn [method pathname body segmentId].
  rewrite pathStartsWith_items, idOfPath_items. reflexivity.
Qed.

Lemma sql_route_delete :
  Sql.handler (onItem "DELETE" rest b) = Sql.remove (parseInt (idSegment rest)).
Proof.
  unfold Sql.handler, onItem. cbn [method pathname body segmentId].
  rewrite pathStartsWith_items, idOfPath_items. reflexivity.
Qed.
End Routes.

Lemma mem_route_post b : Mem.handler (postItems b) = Mem.create b.
Proof. reflexivity. Qed.

Lemma sql_route_post b : Sql.handler (postItems b) = Sql.create b.
Proof. reflexivity. Qed.

Lemma mem_route_list : Mem.handler getItems = Mem.listAll.
Proof. reflexivity. Qed.

Lemma sql_route_list : Sql.handler getItems = Sql.listAll.
Proof. reflexivity. Qed.

(** ** Accepted bodies carry two strings *)

Lemma validated_inr b data :
  validated b = inr data ->
  isValid (validateItemInput data) = true /\
  strOf (get data (lit "name")) = Some (fieldText data "name") /\
  strOf (get data (lit "description")) = Some (fieldText data "description").
Proof.
  unfold validated. destruct (parseBody b) as [v|]; [|discriminate].
  destruct (isValid (validateItemInput v)) eqn:E; simpl; [|discriminate].
  intros H. inversion H. subst v. split; [exact E|].
  unfold validateItemInput in E.
  destruct (negb (truthy data)); [discriminate|].
  unfold fieldText.
  destruct (isString (get data (lit "name"))) eqn:Hn;
    [|rewrite orb_true_r in E; discriminate].
  destruct (isString (get data (lit "description"))) eqn:Hd.
  - destruct (get data (lit "name")) as [[]|]; try discriminate.
    destruct (get data (lit "description")) as [[]|]; try discriminate.
    auto.
  - rewrite orb_true_r in E. cbn [negb orb isValid] in E.
    destruct (negb (truthy (get data (lit "name"))) || false
              || blank (get data (lit "name"))); discriminate.
Qed.

Lemma validated_inl_status b r : validated b = inl r -> status r = 400.
Proof.
  unfold validated. destruct (parseBody b) as [v|].
  - destruct (negb (isValid (validateItemInput v))); intros H; inversion H;
      reflexivity.
  - intros H. inversion H. reflexivity.
Qed.

(** ** Arrays and tables *)

Lemma findIndex_spec {A} (p : A -> bool) l :
  match findIndex p l with
  | Some i => exists x, nth_error l i = Some x /\ find p l = Some x /\ p x = true
  | None => find p l = None
  end.
Proof.
  induction l as [|y l IH]; simpl; [reflexivity|].
  destruct (p y) eqn:E; [exists y; auto|].
  destruct (findIndex p l); simpl; [|exact IH].
  destruct IH as [x [H1 [H2 H3]]]. eauto.
Qed.

Lemma find_none_notin k l :
  ~ In k (map id l) -> find (hasId k) l = None.
Proof.
  induction l as [|x l IH]; simpl; [reflexivity|]. intros H.
  unfold hasId at 1. destruct (Z.eqb_spec (id x) k); [tauto|].
  apply IH. tauto.
Qed.

Lemma filter_notin k l :
  ~ In k (map id l) -> filter (fun it => negb (hasId k it)) l = l.
Proof.
  induction l as [|x l IH]; simpl; [reflexivity|]. intros H.
  unfold hasId at 1. destruct (Z.eqb_spec (id x) k); [tauto|].
  simpl. f_equal. apply IH. tauto.
Qed.

Lemma map_update_notin k n d l :
  ~ In k (map id l) ->
  map (fun it => if hasId k it then mkItem (id it) n d else it) l = l.
Proof.
  induction l as [|x l IH]; simpl; [reflexivity|]. intros H.
  unfold hasId at 1. destruct (Z.eqb_spec (id x) k); [tauto|].
  f_equal. apply IH. tauto.
Qed.

Lemma assign_unique k l i n d :
  NoDup (map id l) ->
  findIndex (hasId k) l = Some i ->
  Mem.assign i (mkItem k n d) l =
    map (fun it => if hasId k it then mkItem (id it) n d else it) l /\
  nth_error (Mem.assign i (mkItem k n d) l) i = Some (mkItem k n d).
Proof.
  revert i. induction l as [|x t IH]; simpl; [discriminate|].
  intros i Hu. inversion Hu as [|? ? Hx Ht]. subst.
  unfold hasId at 1 3. destruct (Z.eqb_spec (id x) k) as [e|e].
  - intros H. inversion H. subst i. simpl.
    rewrite map_update_notin by (rewrite <- e; exact Hx).
    rewrite e. auto.
  - destruct (findIndex (hasId k) t) as [j|]; [|discriminate].
    simpl. intros H. inversion H. subst i.
    destruct (IH j Ht eq_refl) as [H1 H2]. simpl. rewrite <- H1. auto.
Qed.

Lemma splice_unique k l i :
  NoDup (map id l) ->
  findIndex (hasId k) l = Some i ->
  exists x, find (hasId k) l = Some x /\
            Mem.splice i l = ([x], filter (fun it => negb (hasId k it)) l).
Proof.
  revert i. induction l as [|x t IH]; simpl; [discriminate|].
  intros i Hu. inversion Hu as [|? ? Hx Ht]. subst.
  destruct (hasId k x) eqn:E.
  - intros H. inversion H. subst i. exists x. simpl.
    apply Z.eqb_eq in E.
    rewrite filter_notin by (rewrite <- E; exact Hx). auto.
  - destruct (findIndex (hasId k) t) as [j|]; [|discriminate].
    simpl. intros H. inversion H. subst i.
    destruct (IH j Ht eq_refl) as [y [H1 H2]]. exists y.
    simpl. rewrite H2. auto.
Qed.

(** ** The store invariant *)

Lemma increasing_weaken lo lo' l hi :
  lo' <= lo -> increasing lo l hi -> increasing lo' l hi.
Proof. destruct l; simpl; intros; intuition lia. Qed.

Lemma increasing_le lo l hi : increasing lo l hi -> lo <= hi.
Proof.
  revert lo. induction l as [|x l IH]; simpl; intros lo H; [exact H|].
  destruct H as [H1 H2]. apply IH in H2. lia.
Qed.

Lemma increasing_in lo l hi x :
  increasing lo l hi -> In x l -> lo <= id x < hi.
Proof.
  revert lo. induction l as [|y l IH]; simpl; intros lo H Hin; [tauto|].
  destruct H as [H1 H2]. destruct Hin as [->|Hin].
  - apply increasing_le in H2. lia.
  - specialize (IH _ H2 Hin). lia.
Qed.

Lemma increasing_notin lo l hi k :
  increasing lo l hi -> k < lo \/ hi <= k -> ~ In k (map id l).
Proof.
  intros H Hk Hin. apply in_map_iff in Hin. destruct Hin as [x [<- Hin]].
  pose proof (increasing_in _ _ _ _ H Hin). lia.
Qed.

Lemma increasing_sorted lo l hi :
  increasing lo l hi -> StronglySorted Z.lt (map id l).
Proof.
  revert lo. induction l as [|x l IH]; simpl; intros lo H; constructor.
  - eapply IH, H.
  - destruct H as [_ H]. apply Forall_forall. intros y Hy.
    apply in_map_iff in Hy. destruct Hy as [z [<- Hz]].
    pose proof (increasing_in _ _ _ _ H Hz). lia.
Qed.

Lemma increasing_unique lo l hi : increasing lo l hi -> NoDup (map id l).
Proof.
  revert lo. induction l as [|x l IH]; simpl; intros lo H; constructor.
  - destruct H as [_ H]. eapply increasing_notin; [exact H | lia].
  - eapply IH, H.
Qed.

Lemma increasing_push lo l hi n d :
  increasing lo l hi -> increasing lo (l ++ [mkItem hi n d]) (hi + 1).
Proof.
  revert lo. induction l as [|x l IH]; simpl; intros lo H.
  - lia.
  - destruct H as [H1 H2]. auto.
Qed.

Lemma increasing_update lo l hi k n d :
  increasing lo l hi ->
  increasing lo (map (fun it => if hasId k it then mkItem (id it) n d else it) l) hi.
Proof.
  revert lo. induction l as [|x l IH]; simpl; intros lo H; [exact H|].
  destruct H as [H1 H2].
  destruct (hasId k x); simpl; auto.
Qed.

Lemma increasing_filter lo l hi (p : Item -> bool) :
  increasing lo l hi -> increasing lo (filter p l) hi.
Proof.
  revert lo. induction l as [|x l IH]; simpl; intros lo H; [exact H|].
  destruct H as [H1 H2]. apply IH in H2.
  destruct (p x); simpl; [auto|].
  eapply increasing_weaken; [|exact H2]. lia.
Qed.

Lemma orderById_increasing lo l hi :
  increasing lo l hi -> Sql.orderById l = l.
Proof.
  revert lo. induction l as [|x l IH]; simpl; intros lo H; [reflexivity|].
  destruct H as [H1 H2]. rewrite (IH _ H2).
  destruct l as [|y l]; simpl; [reflexivity|].
  destruct H2 as [H2 _]. destruct (Z.leb_spec (id x) (id y)); [reflexivity|lia].
Qed.

Lemma maxId_increasing lo l hi :
  0 <= lo -> increasing lo l hi -> Sql.maxId l < hi \/ Sql.maxId l = 0.
Proof.
  unfold Sql.maxId. revert lo.
  induction l as [|x l IH]; simpl; intros lo Hlo H; [auto|].
  destruct H as [H1 H2].
  pose proof (increasing_le _ _ _ H2).
  destruct (IH (id x + 1) ltac:(lia) H2); lia.
Qed.

(** ** What each route does to the in-memory store *)

Section MemRoutes.
Variable s : Mem.store.

Lemma mem_listAll :
  run Mem.exec Mem.listAll s =
    (reply 200 (JArr (map itemJson (Mem.items s))), s).
Proof. reflexivity. Qed.

Lemma mem_readOne k :
  run Mem.exec (Mem.readOne (Some k)) s =
    (match find (hasId k) (Mem.items s) with
     | Some it => reply 200 (itemJson it)
     | None => itemNotFound
     end, s).
Proof. simpl. destruct (find (hasId k) (Mem.items s)); reflexivity. Qed.

Lemma mem_create_rejected b r :
  validated b = inl r -> run Mem.exec (Mem.create b) s = (r, s).
Proof. unfold Mem.create. intros ->. reflexivity. Qed.

Lemma mem_create_accepted b data :
  validated b = inr data ->
  run Mem.exec (Mem.create b) s =
    (reply 201 (itemJson (itemOf (Mem.nextId s) data)),
     Mem.mkStore (Mem.items s ++ [itemOf (Mem.nextId s) data])
                 (Mem.nextId s + 1)).
Proof.
  intros H. unfold Mem.create. rewrite H.
  destruct (validated_inr _ _ H) as [_ [Hn Hd]].
  simpl. rewrite Hn, Hd. reflexivity.
Qed.

Lemma mem_update_missing k b :
  find (hasId k) (Mem.items s) = None ->
  run Mem.exec (Mem.update (Some k) b) s = (itemNotFound, s).
Proof.
  intros H. simpl.
  pose proof (findIndex_spec (hasId k) (Mem.items s)) as F.
  destruct (findIndex (hasId k) (Mem.items s)); [|reflexivity].
  destruct F as [x [_ [F _]]]. congruence.
Qed.

Lemma mem_update_rejected k b x r :
  find (hasId k) (Mem.items s) = Some x ->
  validated b = inl r ->
  run Mem.exec (Mem.update (Some k) b) s = (r, s).
Proof.
  intros H Hv. simpl.
  pose proof (findIndex_spec (hasId k) (Mem.items s)) as F.
  destruct (findIndex (hasId k) (Mem.items s)); [|congruence].
  rewrite Hv. reflexivity.
Qed.

Lemma mem_update_accepted k b x data :
  NoDup (map id (Mem.items s)) ->
  find (hasId k) (Mem.items s) = Some x ->
  validated b = inr data ->
  run Mem.exec (Mem.update (Some k) b) s =
    (reply 200 (itemJson (itemOf k data)),
     Mem.mkStore
       (map (fun it => if hasId k it
                       then mkItem (id it) (name (itemOf k data))
                                   (description (itemOf k data))
                       else it) (Mem.items s))
       (Mem.nextId s)).
Proof.
  intros Hu H Hv. simpl.
  pose proof (findIndex_spec (hasId k) (Mem.items s)) as F.
  destruct (findIndex (hasId k) (Mem.items s)) as [i|] eqn:Ei; [|congruence].
  rewrite Hv. destruct (validated_inr _ _ Hv) as [_ [Hn Hd]].
  rewrite Hn, Hd. simpl.
  destruct (assign_unique k (Mem.items s) i
              (trim (fieldText data "name"))
              (trim (fieldText data "description")) Hu Ei) as [A1 A2].
  rewrite A2, A1. reflexivity.
Qed.

Lemma mem_remove_missing k :
  find (hasId k) (Mem.items s) = None ->
  run Mem.exec (Mem.remove (Some k)) s = (itemNotFound, s).
Proof.
  intros H. simpl.
  pose proof (findIndex_spec (hasId k) (Mem.items s)) as F.
  destruct (findIndex (hasId k) (Mem.items s)); [|reflexivity].
  destruct F as [x [_ [F _]]]. congruence.
Qed.

Lemma mem_remove_present k x :
  NoDup (map id (Mem.items s)) ->
  find (hasId k) (Mem.items s) = Some x ->
  run Mem.exec (Mem.remove (Some k)) s =
    (reply 200 (deletedJson x),
     Mem.mkStore (filter (fun it => negb (hasId k it)) (Mem.items s))
                 (Mem.nextId s)).
Proof.
  intros Hu H. simpl.
  pose proof (findIndex_spec (hasId k) (Mem.items s)) as F.
  destruct (findIndex (hasId k) (Mem.items s)) as [i|] eqn:Ei; [|congruence].
  destruct (splice_unique k (Mem.items s) i Hu Ei) as [y [Hy Hs]].
  simpl. rewrite Hs. congruence.
Qed.
End MemRoutes.

(** ** What each route does to the table *)

Section SqlRoutes.
Variable db : Sql.database.

Lemma sql_listAll :
  run Sql.exec Sql.listAll db =
    (reply 200 (JArr (map itemJson (Sql.orderById (Sql.rows db)))), db).
Proof. reflexivity. Qed.

Lemma sql_readOne k :
  run Sql.exec (Sql.readOne (Some k)) db =
    (match find (hasId k) (Sql.rows db) with
     | Some it => reply 200 (itemJson it)
     | None => itemNotFound
     end, db).
Proof. simpl. destruct (find (hasId k) (Sql.rows db)); reflexivity. Qed.

Lemma sql_create_rejected b r :
  validated b = inl r -> run Sql.exec (Sql.create b) db = (r, db).
Proof. unfold Sql.create. intros ->. reflexivity. Qed.

Lemma sql_create_accepted b data :
  validated b = inr data ->
  run Sql.exec (Sql.create b) db =
    (reply 201 (itemJson (itemOf (Sql.nextRowid db) data)),
     Sql.mkDatabase (Sql.rows db ++ [Sql.stored (itemOf (Sql.nextRowid db) data)])
                    (Sql.nextRowid db)).
Proof.
  intros H. unfold Sql.create. rewrite H.
  destruct (validated_inr _ _ H) as [_ [Hn Hd]].
  rewrite Hn, Hd. reflexivity.
Qed.

Lemma sql_update_missing k b :
  find (hasId k) (Sql.rows db) = None ->
  run Sql.exec (Sql.update (Some k) b) db = (itemNotFound, db).
Proof. intros H. simpl. rewrite H. reflexivity. Qed.

Lemma sql_update_rejected k b x r :
  find (hasId k) (Sql.rows db) = Some x ->
  validated b = inl r ->
  run Sql.exec (Sql.update (Some k) b) db = (r, db).
Proof. intros H Hv. simpl. rewrite H, Hv. reflexivity. Qed.

Lemma sql_update_accepted k b x data :
  find (hasId k) (Sql.rows db) = Some x ->
  validated b = inr data ->
  run Sql.exec (Sql.update (Some k) b) db =
    (reply 200 (itemJson (itemOf k data)),
     Sql.mkDatabase
       (map (fun it => if hasId k it
                       then Sql.stored (itemOf (id it) data)
                       else it) (Sql.rows db))
       (Sql.sequence db)).
Proof.
  intros H Hv. simpl. rewrite H, Hv.
  destruct (validated_inr _ _ Hv) as [_ [Hn Hd]].
  rewrite Hn, Hd. reflexivity.
Qed.

Lemma sql_remove_missing k :
  find (hasId k) (Sql.rows db) = None ->
  run Sql.exec (Sql.remove (Some k)) db = (itemNotFound, db).
Proof. intros H. simpl. rewrite H. reflexivity. Qed.

Lemma sql_remove_present k x :
  find (hasId k) (Sql.rows db) = Some x ->
  run Sql.exec (Sql.remove (Some k)) db =
    (reply 200 (deletedJson x),
     Sql.mkDatabase (filter (fun it => negb (hasId k it)) (Sql.rows db))
                    (Sql.sequence db)).
Proof. intros H. simpl. rewrite H. reflexivity. Qed.
End SqlRoutes.

(** ** The two listeners route alike *)

Lemma routes_alike req :
  (exists r, (r = optionsResponse \/ r = notFound) /\
             Mem.handler req = Ret r /\ Sql.handler req = Ret r) \/
  (Mem.handler req = Mem.listAll /\ Sql.handler req = Sql.listAll) \/
  (exists k, Mem.handler req = Mem.readOne k /\ Sql.handler req = Sql.readOne k) \/
  (Mem.handler req = Mem.create (body req) /\
   Sql.handler req = Sql.create (body req)) \/
  (exists k, Mem.handler req = Mem.update k (body req) /\
             Sql.handler req = Sql.update k (body req)) \/
  (exists k, Mem.handler req = Mem.remove k /\ Sql.handler req = Sql.remove k).
Proof.
  unfold Mem.handler, Sql.handler.
  destruct (method req =? "OPTIONS")%string; [left; eauto 6|].
  destruct ((method req =? "GET")%string && pathIs (pathname req) "/items");
    [right; left; auto|].
  destruct ((method req =? "GET")%string
            && pathStartsWith (pathname req) "/items/");
    [right; right; left; eauto|].
  destruct ((method req =? "POST")%string && pathIs (pathname req) "/items");
    [right; right; right; left; auto|].
  destruct ((method req =? "PUT")%string
            && pathStartsWith (pathname req) "/items/");
    [right; right; right; right; left; eauto|].
  destruct ((method req =? "DELETE")%string
            && pathStartsWith (pathname req) "/items/");
    [right; right; right; right; right; eauto|].
  left; eauto 6.
Qed.

(** ** Simulation between the two stores *)

Lemma related_nextRowid s db :
  related s db -> Sql.nextRowid db = Mem.nextId s.
Proof.
  intros [Hi [Hn Hc]]. unfold Sql.nextRowid. rewrite <- Hi, Hn.
  unfold consistent in Hc. rewrite Hn in Hc.
  pose proof (increasing_le _ _ _ Hc).
  destruct (maxId_increasing 1 _ _ ltac:(lia) Hc); lia.
Qed.

Lemma related_initial : related Mem.initial Sql.empty.
Proof. unfold related, consistent. simpl. repeat split; lia. Qed.

Lemma consistent_unique s : consistent s -> NoDup (map id (Mem.items s)).
Proof. apply increasing_unique. Qed.

(** One request keeps the in-memory store consistent. *)
Lemma step_consistent req s :
  consistent s -> consistent (snd (Mem.step req s)).
Proof.
  intros Hc. unfold Mem.step.
  destruct (routes_alike req) as
    [[r [_ [-> _]]]|[[-> _]|[[k [-> _]]|[[-> _]|[[k [-> _]]|[k [-> _]]]]]]].
  - exact Hc.
  - exact Hc.
  - destruct k as [k|]; [rewrite mem_readOne|]; exact Hc.
  - destruct (validated (body req)) as [r|data] eqn:Hv.
    + rewrite (mem_create_rejected _ _ _ Hv). exact Hc.
    + rewrite (mem_create_accepted _ _ _ Hv). simpl.
      apply increasing_push. exact Hc.
  - destruct k as [k|]; [|exact Hc].
    destruct (find (hasId k) (Mem.items s)) as [x|] eqn:Hf.
    + destruct (validated (body req)) as [r|data] eqn:Hv.
      * rewrite (mem_update_rejected _ _ _ _ _ Hf Hv). exact Hc.
      * rewrite (mem_update_accepted _ _ _ _ _ (consistent_unique _ Hc) Hf Hv).
        simpl. apply increasing_update. exact Hc.
    + rewrite (mem_update_missing _ _ _ Hf). exact Hc.
  - destruct k as [k|]; [|exact Hc].
    destruct (find (hasId k) (Mem.items s)) as [x|] eqn:Hf.
    + rewrite (mem_remove_present _ _ _ (consistent_unique _ Hc) Hf).
      simpl. apply increasing_filter. exact Hc.
    + rewrite (mem_remove_missing _ _ Hf). exact Hc.
Qed.

Lemma stored_clean k data :
  cleanText (trim (fieldText data "name")) ->
  cleanText (trim (fieldText data "description")) ->
  Sql.stored (itemOf k data) = itemOf k data.
Proof.
  unfold cleanText, Sql.stored, itemOf. simpl. intros -> ->. reflexivity.
Qed.

(** One request whose text is clean: equal responses, related stores. *)
Lemma step_related req s db :
  related s db ->
  cleanRequest req ->
  fst (Mem.step req s) = fst (Sql.step req db) /\
  related (snd (Mem.step req s)) (snd (Sql.step req db)).
Proof.
  intros R Hclean. pose proof R as [Hi [Hn Hc]].
  pose proof (step_consistent req s Hc) as Hc'.
  revert Hc'. unfold Mem.step, Sql.step.
  destruct (routes_alike req) as
    [[r [_ [-> ->]]]|[[-> ->]|[[k [-> ->]]|[[-> ->]|[[k [-> ->]]|[k [-> ->]]]]]]];
    intros Hc'.
  - simpl. auto.
  - rewrite mem_listAll, sql_listAll. simpl. split; [|exact R].
    rewrite <- Hi, (orderById_increasing _ _ _ Hc). reflexivity.
  - destruct k as [k|]; [|simpl; auto].
    rewrite mem_readOne, sql_readOne. simpl. rewrite Hi. auto.
  - destruct (validated (body req)) as [r|data] eqn:Hv.
    + rewrite (mem_create_rejected _ _ _ Hv), (sql_create_rejected _ _ _ Hv).
      auto.
    + rewrite (mem_create_accepted _ _ _ Hv) in *.
      rewrite (sql_create_accepted _ _ _ Hv).
      rewrite (related_nextRowid _ _ R).
      destruct (Hclean _ Hv) as [Cn Cd]. rewrite (stored_clean _ _ Cn Cd).
      split; [reflexivity|]. split; [simpl; congruence|].
      split; [reflexivity | exact Hc'].
  - destruct k as [k|]; [|simpl; auto].
    destruct (find (hasId k) (Mem.items s)) as [x|] eqn:Hf.
    + destruct (validated (body req)) as [r|data] eqn:Hv.
      * rewrite (mem_update_rejected _ _ _ _ _ Hf Hv).
        rewrite Hi in Hf. rewrite (sql_update_rejected _ _ _ _ _ Hf Hv). auto.
      * rewrite (mem_update_accepted _ _ _ _ _ (consistent_unique _ Hc) Hf Hv) in *.
        rewrite Hi in Hf. rewrite (sql_update_accepted _ _ _ _ _ Hf Hv).
        destruct (Hclean _ Hv) as [Cn Cd].
        split; [reflexivity|]. split; [|split; [exact Hn | exact Hc']].
        simpl. rewrite Hi. apply map_ext. intros it.
        rewrite (stored_clean _ _ Cn Cd). reflexivity.
    + rewrite (mem_update_missing _ _ _ Hf).
      rewrite Hi in Hf. rewrite (sql_update_missing _ _ _ Hf). auto.
  - destruct k as [k|]; [|simpl; auto].
    destruct (find (hasId k) (Mem.items s)) as [x|] eqn:Hf.
    + rewrite (mem_remove_present _ _ _ (consistent_unique _ Hc) Hf) in *.
      rewrite Hi in Hf. rewrite (sql_remove_present _ _ _ Hf).
      split; [reflexivity|]. split; [simpl; congruence|]. split; [exact Hn | exact Hc'].
    + rewrite (mem_remove_missing _ _ Hf).
      rewrite Hi in Hf. rewrite (sql_remove_missing _ _ Hf). auto.
Qed.


(** ** Assigned ids *)

Lemma assigned_other r : status r <> 201 -> assigned r = None.
Proof.
  unfold assigned. intros H. destruct (Z.eqb_spec (status r) 201); tauto.
Qed.

Lemma assigned_created it : assigned (reply 201 (itemJson it)) = Some (id it).
Proof. reflexivity. Qed.

Lemma zrange_in start n k : In k (zrange start n) <-> start <= k < start + Z.of_nat n.
Proof.
  revert start. induction n as [|n IH]; intros start; simpl zrange.
  - simpl. lia.
  - simpl In. rewrite IH. lia.
Qed.

Lemma zrange_sorted start n : StronglySorted Z.lt (zrange start n).
Proof.
  revert start. induction n as [|n IH]; intros start; simpl; constructor.
  - apply IH.
  - apply Forall_forall. intros k Hk. apply zrange_in in Hk. lia.
Qed.

(** A request either assigns the next id and advances the counter, or
    assigns nothing and leaves the counter alone. *)
Lemma step_assigned req s :
  (assigned (fst (Mem.step req s)) = Some (Mem.nextId s) /\
   Mem.nextId (snd (Mem.step req s)) = Mem.nextId s + 1) \/
  (assigned (fst (Mem.step req s)) = None /\
   Mem.nextId (snd (Mem.step req s)) = Mem.nextId s).
Proof.
  unfold Mem.step.
  destruct (routes_alike req) as
    [[r [Hr [-> _]]]|[[-> _]|[[k [-> _]]|[[-> _]|[[k [-> _]]|[k [-> _]]]]]]].
  - right. destruct Hr as [-> | ->]; auto.
  - right. auto.
  - right. destruct k as [k|]; [rewrite mem_readOne|]; simpl; [|auto].
    destruct (find (hasId k) (Mem.items s)); auto.
  - destruct (validated (body req)) as [r|data] eqn:Hv.
    + right. rewrite (mem_create_rejected _ _ _ Hv). simpl.
      split; [|reflexivity]. apply assigned_other.
      rewrite (validated_inl_status _ _ Hv). discriminate.
    + left. rewrite (mem_create_accepted _ _ _ Hv). auto.
  - right. destruct k as [k|]; [|auto]. unfold Mem.update.
    cbn [bind trigger run Mem.exec].
    destruct (findIndex (hasId k) (Mem.items s)); [|auto].
    destruct (validated (body req)) as [r|data] eqn:Hv.
    + simpl. split; [|reflexivity]. apply assigned_other.
      rewrite (validated_inl_status _ _ Hv). discriminate.
    + destruct (validated_inr _ _ Hv) as [_ [-> ->]]. simpl. auto.
  - right. destruct k as [k|]; [|auto]. unfold Mem.remove.
    cbn [bind trigger run Mem.exec].
    destruct (findIndex (hasId k) (Mem.items s)) as [i|]; [|auto].
    cbn [bind trigger run Mem.exec].
    destruct (Mem.splice i (Mem.items s)). auto.
Qed.

Lemma serve_assigned reqs : forall s,
  consistent s ->
  consistent (snd (serve Mem.step reqs s)) /\
  assignedIds (fst (serve Mem.step reqs s)) =
    zrange (Mem.nextId s)
           (List.length (assignedIds (fst (serve Mem.step reqs s)))) /\
  Mem.nextId (snd (serve Mem.step reqs s)) =
    Mem.nextId s
    + Z.of_nat (List.length (assignedIds (fst (serve Mem.step reqs s)))).
Proof.
  induction reqs as [|req reqs IH]; intros s Hc; simpl.
  - repeat split; [exact Hc | lia].
  - pose proof (step_consistent req s Hc) as Hc1.
    pose proof (step_assigned req s) as Ha.
    destruct (Mem.step req s) as [r s1]. simpl in Hc1, Ha.
    destruct (IH s1 Hc1) as [H1 [H2 H3]].
    destruct (serve Mem.step reqs s1) as [rs s2]. simpl in *.
    split; [exact H1|].
    destruct Ha as [[-> Hn] | [-> Hn]]; rewrite Hn in *; simpl.
    + split; [f_equal; exact H2 | lia].
    + split; [exact H2 | exact H3].
Qed.

(** ** The table tracks the array *)

Lemma map_id_stored l : map id (map Sql.stored l) = map id l.
Proof. rewrite map_map. apply map_ext. reflexivity. Qed.

Lemma find_stored k l :
  find (hasId k) (map Sql.stored l) = option_map Sql.stored (find (hasId k) l).
Proof.
  induction l as [|x l IH]; simpl; [reflexivity|].
  change (hasId k (Sql.stored x)) with (hasId k x).
  destruct (hasId k x); [reflexivity | exact IH].
Qed.

Lemma filter_stored k l :
  filter (fun it => negb (hasId k it)) (map Sql.stored l) =
  map Sql.stored (filter (fun it => negb (hasId k it)) l).
Proof.
  induction l as [|x l IH]; simpl; [reflexivity|].
  change (hasId k (Sql.stored x)) with (hasId k x).
  destruct (hasId k x); simpl; congruence.
Qed.

Lemma update_stored k data l :
  map (fun it => if hasId k it then Sql.stored (itemOf (id it) data) else it)
      (map Sql.stored l) =
  map Sql.stored
      (map (fun it => if hasId k it
                      then mkItem (id it) (name (itemOf k data))
                                  (description (itemOf k data))
                      else it) l).
Proof.
  rewrite !map_map. apply map_ext. intros it.
  change (hasId k (Sql.stored it)) with (hasId k it).
  destruct (hasId k it); reflexivity.
Qed.

Lemma increasing_stored lo l hi :
  increasing lo l hi -> increasing lo (map Sql.stored l) hi.
Proof.
  revert lo. induction l as [|x l IH]; simpl; intros lo H; [exact H|].
  destruct H as [H1 H2]. split; [exact H1 | apply IH, H2].
Qed.

Lemma tracks_nextRowid s db : tracks s db -> Sql.nextRowid db = Mem.nextId s.
Proof.
  intros [Hi [Hn Hc]]. unfold Sql.nextRowid, Sql.maxId.
  rewrite Hi, map_id_stored, Hn.
  unfold consistent in Hc. rewrite Hn in Hc.
  pose proof (increasing_le _ _ _ Hc).
  destruct (maxId_increasing 1 _ _ ltac:(lia) Hc) as [H1|H1];
    unfold Sql.maxId in H1; lia.
Qed.

Lemma tracks_initial : tracks Mem.initial Sql.empty.
Proof. unfold tracks, consistent. simpl. repeat split; lia. Qed.

Lemma tracks_ordered s db : tracks s db -> Sql.orderById (Sql.rows db) = Sql.rows db.
Proof.
  intros [Hi [_ Hc]]. rewrite Hi.
  apply (orderById_increasing 1 _ (Mem.nextId s)), increasing_stored, Hc.
Qed.

Lemma similar_same r : similar r r.
Proof. unfold similar. auto. Qed.

Lemma similar_found x y :
  similar (reply 200 (itemJson x)) (reply 200 (itemJson y)).
Proof. unfold similar. simpl. repeat split. discriminate. Qed.

Lemma similar_assigned r1 r2 : similar r1 r2 -> assigned r1 = assigned r2.
Proof.
  intros [Hs [_ Hc]]. destruct (Z.eq_dec (status r1) 201) as [E|E].
  - rewrite (Hc E). reflexivity.
  - rewrite !assigned_other; [reflexivity | congruence | exact E].
Qed.

(** One request: similar responses, and the table still tracks the array. *)
Lemma step_tracks req s db :
  tracks s db ->
  similar (fst (Mem.step req s)) (fst (Sql.step req db)) /\
  tracks (snd (Mem.step req s)) (snd (Sql.step req db)).
Proof.
  intros R. pose proof R as [Hi [Hn Hc]].
  pose proof (step_consistent req s Hc) as Hc'.
  revert Hc'. unfold Mem.step, Sql.step.
  destruct (routes_alike req) as
    [[r [_ [-> ->]]]|[[-> ->]|[[k [-> ->]]|[[-> ->]|[[k [-> ->]]|[k [-> ->]]]]]]];
    intros Hc'.
  - simpl. split; [apply similar_same | exact R].
  - rewrite mem_listAll, sql_listAll. simpl. split; [|exact R].
    unfold similar. simpl. repeat split. discriminate.
  - destruct k as [k|]; [|simpl; split; [apply similar_same | exact R]].
    rewrite mem_readOne, sql_readOne. simpl. split; [|exact R].
    rewrite Hi, find_stored.
    destruct (find (hasId k) (Mem.items s)); simpl;
      [apply similar_found | apply similar_same].
  - destruct (validated (body req)) as [r|data] eqn:Hv.
    + rewrite (mem_create_rejected _ _ _ Hv), (sql_create_rejected _ _ _ Hv).
      split; [apply similar_same | exact R].
    + rewrite (mem_create_accepted _ _ _ Hv) in *.
      rewrite (sql_create_accepted _ _ _ Hv).
      rewrite (tracks_nextRowid _ _ R).
      split; [apply similar_same|]. split; [|split; [reflexivity | exact Hc']].
      simpl. rewrite Hi, map_app. reflexivity.
  - destruct k as [k|]; [|simpl; split; [apply similar_same | exact R]].
    destruct (find (hasId k) (Mem.items s)) as [x|] eqn:Hf.
    + assert (find (hasId k) (Sql.rows db) = Some (Sql.stored x)) as Hf'
        by (rewrite Hi, find_stored, Hf; reflexivity).
      destruct (validated (body req)) as [r|data] eqn:Hv.
      * rewrite (mem_update_rejected _ _ _ _ _ Hf Hv).
        rewrite (sql_update_rejected _ _ _ _ _ Hf' Hv).
        split; [apply similar_same | exact R].
      * rewrite (mem_update_accepted _ _ _ _ _ (consistent_unique _ Hc) Hf Hv) in *.
        rewrite (sql_update_accepted _ _ _ _ _ Hf' Hv).
        split; [apply similar_same|]. split; [|split; [exact Hn | exact Hc']].
        simpl. rewrite Hi. apply update_stored.
    + assert (find (hasId k) (Sql.rows db) = None) as Hf'
        by (rewrite Hi, find_stored, Hf; reflexivity).
      rewrite (mem_update_missing _ _ _ Hf), (sql_update_missing _ _ _ Hf').
      split; [apply similar_same | exact R].
  - destruct k as [k|]; [|simpl; split; [apply similar_same | exact R]].
    destruct (find (hasId k) (Mem.items s)) as [x|] eqn:Hf.
    + assert (find (hasId k) (Sql.rows db) = Some (Sql.stored x)) as Hf'
        by (rewrite Hi, find_stored, Hf; reflexivity).
      rewrite (mem_remove_present _ _ _ (consistent_unique _ Hc) Hf) in *.
      rewrite (sql_remove_present _ _ _ Hf').
      split; [|split; [|split; [exact Hn | exact Hc']]].
      * unfold similar. simpl. repeat split. discriminate.
      * simpl. rewrite Hi. apply filter_stored.
    + assert (find (hasId k) (Sql.rows db) = None) as Hf'
        by (rewrite Hi, find_stored, Hf; reflexivity).
      rewrite (mem_remove_missing _ _ Hf), (sql_remove_missing _ _ Hf').
      split; [apply similar_same | exact R].
Qed.

Lemma serve_tracks reqs : forall s db,
  tracks s db ->
  Forall2 similar (fst (serve Mem.step reqs s)) (fst (serve Sql.step reqs db)) /\
  tracks (snd (serve Mem.step reqs s)) (snd (serve Sql.step reqs db)).
Proof.
  induction reqs as [|req reqs IH]; intros s db R; simpl.
  - split; [constructor | exact R].
  - destruct (step_tracks req s db R) as [H1 H2].
    destruct (Mem.step req s) as [r1 s1], (Sql.step req db) as [r2 db1].
    simpl in H1, H2. specialize (IH s1 db1 H2).
    destruct (serve Mem.step reqs s1), (serve Sql.step reqs db1).
    simpl in *. destruct IH as [IH1 IH2]. split; [constructor; assumption|].
    exact IH2.
Qed.

Lemma similar_assignedIds rs1 rs2 :
  Forall2 similar rs1 rs2 -> assignedIds rs1 = assignedIds rs2.
Proof.
  induction 1 as [|r1 r2 rs1 rs2 H _ IH]; simpl; [reflexivity|].
  rewrite (similar_assigned _ _ H), IH. reflexivity.
Qed.

Lemma tracks_reached reqs : tracks (reached reqs) (reachedSql reqs).
Proof. apply (serve_tracks reqs _ _ tracks_initial). Qed.

(** ** Decimal text and parseInt *)

Lemma digitValue_decimal m :
  0 <= m <= 9 -> digitValue 10 (Z.to_N (48 + m)) = Some m.
Proof.
  intros H. unfold digitValue. rewrite Z2N.id by lia.
  destruct (Z.leb_spec 48 (48 + m)); [|lia].
  destruct (Z.leb_spec (48 + m) 57); [|lia].
  cbn [andb]. f_equal. lia.
Qed.

Lemma digits_decimalFuel f : forall n rest,
  1 <= n < 2 ^ Z.of_nat f ->
  exists k, 0 <= k /\
    forall a, digits 10 a (decimalFuel f n rest) =
              digits 10 (Some (match a with Some a => a | None => 0 end * 10 ^ k + n))
                     rest.
Proof.
  induction f as [|f IH]; intros n rest Hn.
  - simpl in Hn. lia.
  - rewrite Nat2Z.inj_succ, Z.pow_succ_r in Hn by lia.
    pose proof (Z.mod_pos_bound n 10 ltac:(lia)) as Hm.
    pose proof (Z.div_mod n 10 ltac:(lia)) as Hd.
    cbn [decimalFuel]. destruct (Z.ltb_spec n 10) as [Hlt|Hge].
    + exists 1. split; [lia|]. intros a. cbn [digits].
      rewrite digitValue_decimal by lia.
      rewrite Z.mod_small by lia. rewrite Z.pow_1_r.
      destruct a; do 2 f_equal; lia.
    + destruct (IH (n / 10) (Z.to_N (48 + n mod 10) :: rest)) as [k [Hk E]].
      { split.
        - apply Z.div_le_lower_bound; lia.
        - apply Z.div_lt_upper_bound; lia. }
      exists (k + 1). split; [lia|]. intros a. rewrite E. cbn [digits].
      rewrite digitValue_decimal by lia.
      rewrite Z.pow_add_r by lia. do 2 f_equal. lia.
Qed.

Lemma decimalFuel_head f : forall n rest,
  1 <= n < 2 ^ Z.of_nat f ->
  exists c t, decimalFuel f n rest = c :: t /\ (49 <= c <= 57)%N.
Proof.
  induction f as [|f IH]; intros n rest Hn.
  - simpl in Hn. lia.
  - rewrite Nat2Z.inj_succ, Z.pow_succ_r in Hn by lia.
    cbn [decimalFuel]. destruct (Z.ltb_spec n 10) as [Hlt|Hge].
    + eexists _, _. split; [reflexivity|].
      rewrite Z.mod_small by lia. lia.
    + apply IH. split.
      * apply Z.div_le_lower_bound; lia.
      * apply Z.div_lt_upper_bound; lia.
Qed.

Lemma decimalFuel_no_slash f : forall n rest,
  ~ In slash rest -> ~ In slash (decimalFuel f n rest).
Proof.
  induction f as [|f IH]; intros n rest Hr; simpl; [exact Hr|].
  pose proof (Z.mod_pos_bound n 10 ltac:(lia)) as Hm.
  assert (~ In slash (Z.to_N (48 + n mod 10) :: rest)) as H.
  { cbn [In]. intros [H|H]; [|tauto].
    apply (f_equal Z.of_N) in H. rewrite Z2N.id in H by lia.
    unfold slash in H. lia. }
  destruct (n <? 10); [exact H | apply IH, H].
Qed.

Lemma leading_digit c :
  (49 <= c <= 57)%N ->
  isWhiteSpace c = false /\ (c =? 45)%N = false /\ (c =? 43)%N = false /\
  (c =? 48)%N = false.
Proof.
  intros H.
  assert (c = 49 \/ c = 50 \/ c = 51 \/ c = 52 \/ c = 53 \/ c = 54 \/ c = 55
          \/ c = 56 \/ c = 57)%N as Hc by lia.
  repeat (destruct Hc as [-> | Hc]; [repeat split|]). subst. repeat split.
Qed.

Lemma decimal_fuel n : 1 <= n -> 1 <= n < 2 ^ Z.of_nat (S (Z.to_nat (Z.log2 n))).
Proof.
  intros H. split; [exact H|].
  rewrite Nat2Z.inj_succ, Z2Nat.id by apply Z.log2_nonneg.
  apply Z.log2_spec. lia.
Qed.

Lemma parseInt_decimal n : 1 <= n -> parseInt (decimal n) = Some n.
Proof.
  intros H. unfold decimal.
  destruct (decimalFuel_head _ n [] (decimal_fuel n H)) as [c [t [E Hc]]].
  destruct (digits_decimalFuel _ n [] (decimal_fuel n H)) as [k [_ D]].
  specialize (D None). rewrite E in D.
  destruct (leading_digit c Hc) as [W [M [P Z0]]].
  unfold parseInt. rewrite E. simpl trimStart. rewrite W, M, P.
  destruct t as [|x t']; rewrite ?Z0; cbn [andb]; rewrite D; cbn [digits];
    f_equal; lia.
Qed.

Lemma split_no_sep sep s : ~ In sep s -> split sep s = [s].
Proof.
  induction s as [|c s IH]; simpl; intros H; [reflexivity|].
  destruct (N.eqb_spec c sep); [tauto|].
  rewrite IH by tauto. reflexivity.
Qed.

Lemma idSegment_no_slash seg : ~ In slash seg -> idSegment seg = seg.
Proof. intros H. unfold idSegment. rewrite split_no_sep by exact H. reflexivity. Qed.

Lemma idSegment_prefix seg rest :
  ~ In slash seg -> idSegment (seg ++ slash :: rest) = seg.
Proof.
  unfold idSegment. induction seg as [|c seg IH]; intros H.
  - reflexivity.
  - simpl app. rewrite split_cons_other.
    + simpl. rewrite IH; [reflexivity|]. simpl in H. tauto.
    + apply N.eqb_neq. simpl in H. intros ->. tauto.
Qed.

Lemma idSegment_decimal n : idSegment (decimal n) = decimal n.
Proof.
  apply idSegment_no_slash. unfold decimal.
  apply decimalFuel_no_slash. simpl. tauto.
Qed.

(** ** ORDER BY id commutes with deleting rows *)

Lemma insertById_in x y l : In y (Sql.insertById x l) -> y = x \/ In y l.
Proof.
  induction l as [|z l IH]; simpl.
  - intros [H|[]]. auto.
  - destruct (id x <=? id z); simpl; intros [H|H]; auto.
    destruct (IH H); auto.
Qed.

Lemma insertById_ordered x l : idOrdered l -> idOrdered (Sql.insertById x l).
Proof.
  unfold idOrdered. induction l as [|z l IH]; simpl; intros H.
  - repeat constructor.
  - inversion H as [|? ? Hs Hf]. subst.
    destruct (Z.leb_spec (id x) (id z)).
    + constructor; [exact H|]. constructor; [lia|].
      eapply Forall_impl; [|exact Hf]. simpl. intros. lia.
    + constructor; [apply IH, Hs|].
      apply Forall_forall. intros y Hy.
      destruct (insertById_in _ _ _ Hy) as [->|Hy']; [lia|].
      rewrite Forall_forall in Hf. apply Hf, Hy'.
Qed.

Lemma orderById_ordered l : idOrdered (Sql.orderById l).
Proof.
  induction l as [|x l IH]; simpl; [constructor|].
  apply insertById_ordered, IH.
Qed.

Lemma insertById_filter (p : Item -> bool) x l :
  idOrdered l ->
  filter p (Sql.insertById x l) =
    if p x then Sql.insertById x (filter p l) else filter p l.
Proof.
  unfold idOrdered. induction l as [|z l IH]; simpl; intros H.
  - destruct (p x); reflexivity.
  - inversion H as [|? ? Hs Hf]. subst. specialize (IH Hs).
    destruct (Z.leb_spec (id x) (id z)) as [Hle|Hgt]; simpl.
    + destruct (p x); [|reflexivity].
      destruct (p z); simpl.
      * destruct (Z.leb_spec (id x) (id z)); [reflexivity|lia].
      * destruct (filter p l) as [|w t] eqn:E; [reflexivity|]. simpl.
        assert (In w l) as Hw.
        { apply (proj1 (filter_In p w l)). rewrite E. left. reflexivity. }
        rewrite Forall_forall in Hf. specialize (Hf w Hw). simpl in Hf.
        destruct (Z.leb_spec (id x) (id w)); [reflexivity|lia].
    + rewrite IH. destruct (p z), (p x); simpl; try reflexivity.
      destruct (Z.leb_spec (id x) (id z)); [lia|reflexivity].
Qed.

Lemma orderById_filter (p : Item -> bool) l :
  Sql.orderById (filter p l) = filter p (Sql.orderById l).
Proof.
  induction l as [|x l IH]; simpl; [reflexivity|].
  rewrite insertById_filter by apply orderById_ordered.
  destruct (p x); simpl; congruence.
Qed.

(** ** Further facts on the routes *)

Lemma find_present k l :
  In k (map id l) -> exists x, find (hasId k) l = Some x.
Proof.
  intros H. destruct (find (hasId k) l) as [x|] eqn:E; [eauto|].
  apply in_map_iff in H. destruct H as [x [Hx Hin]].
  pose proof (find_none _ _ E x Hin) as F. unfold hasId in F.
  apply Z.eqb_neq in F. contradiction.
Qed.

Lemma find_unique k l x :
  NoDup (map id l) -> In x l -> id x = k -> find (hasId k) l = Some x.
Proof.
  induction l as [|y l IH]; simpl; intros Hu Hin Hk; [tauto|].
  inversion Hu as [|? ? Hy Hl]. subst.
  unfold hasId at 1. destruct Hin as [->|Hin].
  - rewrite Z.eqb_refl. reflexivity.
  - destruct (Z.eqb_spec (id y) (id x)) as [e|e]; [|auto].
    exfalso. apply Hy. rewrite e. apply in_map. exact Hin.
Qed.

Lemma find_pushed k l x :
  ~ In k (map id l) -> id x = k -> find (hasId k) (l ++ [x]) = Some x.
Proof.
  induction l as [|y l IH]; simpl; intros Hn Hk.
  - unfold hasId. rewrite Hk, Z.eqb_refl. reflexivity.
  - unfold hasId at 1. destruct (Z.eqb_spec (id y) k); [tauto|].
    apply IH; tauto.
Qed.

Lemma find_filtered k l :
  find (hasId k) (filter (fun it => negb (hasId k it)) l) = None.
Proof.
  induction l as [|y l IH]; simpl; [reflexivity|].
  destruct (hasId k y) eqn:E; simpl; [exact IH|]. rewrite E. exact IH.
Qed.

Lemma assign_nth i it : forall l x,
  nth_error l i = Some x -> nth_error (Mem.assign i it l) i = Some it.
Proof.
  induction i as [|i IH]; intros [|y l] x; simpl; try discriminate; auto.
  intros H. eapply IH, H.
Qed.

Lemma mem_update_response s k b x data :
  find (hasId k) (Mem.items s) = Some x ->
  validated b = inr data ->
  fst (run Mem.exec (Mem.update (Some k) b) s) =
    reply 200 (itemJson (itemOf k data)).
Proof.
  intros H Hv. simpl.
  pose proof (findIndex_spec (hasId k) (Mem.items s)) as F.
  destruct (findIndex (hasId k) (Mem.items s)) as [i|] eqn:Ei; [|congruence].
  destruct F as [y [Hy _]].
  rewrite Hv. destruct (validated_inr _ _ Hv) as [_ [Hn Hd]].
  rewrite Hn, Hd. simpl.
  rewrite (assign_nth _ _ _ _ Hy). reflexivity.
Qed.

Lemma validated_missing b :
  missing b = true -> validated b = inl bodyRequired.
Proof.
  unfold missing, validated. destruct (parseBody b) as [data|]; [|discriminate].
  intros H. unfold validateItemInput. rewrite H. reflexivity.
Qed.

(* ================================================================= *)
(** * The claims of the specification *)

(** C1, as the specification words it, fails: a name of one space and one
    hundred letters has 100 characters after trimming and a fine
    description, yet both servers reject it with "Name must be 100
    characters or less". *)
Lemma padded_name_rejected :
  fitsTrimmed 100 paddedName /\ fitsTrimmed 500 (lit "x") /\
  fst (Mem.step (postItems paddedBody) Mem.initial) =
    reply 400 (validationJson ["Name must be 100 characters or less"]) /\
  fst (Sql.step (postItems paddedBody) Sql.empty) =
    reply 400 (validationJson ["Name must be 100 characters or less"]).
Proof.
  split; [|split; [|split]].
  - unfold fitsTrimmed. vm_compute. lia.
  - unfold fitsTrimmed. vm_compute. lia.
  - vm_compute. reflexivity.
  - vm_compute. reflexivity.
Qed.

(** C1 (amended): for a POST /items or a PUT /items/:id on a stored id whose
    body is an object with string [name] and [description], the request
    succeeds exactly when each field is non-empty after trimming and the
    field as sent (untrimmed) has at most 100, respectively 500,
    characters; and "Name must be 100 characters or less" is among the
    details exactly when the name as sent has more than 100 characters. *)
Theorem length_limits_apply_to_sent_text fields n d :
  lookup (lit "name") fields = Some (JStr n) ->
  lookup (lit "description") fields = Some (JStr d) ->
  (forall s,
     status (fst (Mem.step (postItems (objectBody fields)) s)) = 201
     <-> fits 100 n /\ fits 500 d) /\
  (forall db,
     status (fst (Sql.step (postItems (objectBody fields)) db)) = 201
     <-> fits 100 n /\ fits 500 d) /\
  (forall s rest k,
     parseInt (idSegment rest) = Some k -> In k (map id (Mem.items s)) ->
     status (fst (Mem.step (onItem "PUT" rest (objectBody fields)) s)) = 200
     <-> fits 100 n /\ fits 500 d) /\
  (forall db rest k,
     parseInt (idSegment rest) = Some k -> In k (map id (Sql.rows db)) ->
     status (fst (Sql.step (onItem "PUT" rest (objectBody fields)) db)) = 200
     <-> fits 100 n /\ fits 500 d) /\
  (In "Name must be 100 characters or less"
      (errors (validateItemInput (Some (JObj fields))))
   <-> (100 < List.length n)%nat).
Proof.
  intros Hn Hd.
  destruct (validated_strings fields n d Hn Hd) as [Hyes Hno].
  assert (forall r, validated (objectBody fields) = inl r -> status r = 400)
    as H400 by (intros r; apply validated_inl_status).
  assert (fits 100 n /\ fits 500 d \/ ~ (fits 100 n /\ fits 500 d)) as Hdec.
  { destruct (isValid (validateItemInput (Some (JObj fields)))) eqn:E.
    - left. apply (isValid_strings fields n d Hn Hd). exact E.
    - right. intros H. apply (isValid_strings fields n d Hn Hd) in H.
      congruence. }
  split; [|split; [|split; [|split]]].
  - intros s. unfold Mem.step. rewrite mem_route_post.
    destruct Hdec as [H|H].
    + rewrite (mem_create_accepted _ _ _ (Hyes H)). simpl. tauto.
    + rewrite (mem_create_rejected _ _ _ (Hno H)). simpl.
      split; [discriminate | tauto].
  - intros db. unfold Sql.step. rewrite sql_route_post.
    destruct Hdec as [H|H].
    + rewrite (sql_create_accepted _ _ _ (Hyes H)). simpl. tauto.
    + rewrite (sql_create_rejected _ _ _ (Hno H)). simpl.
      split; [discriminate | tauto].
  - intros s rest k Hk Hin. unfold Mem.step. rewrite mem_route_put, Hk.
    destruct (find_present _ _ Hin) as [x Hx].
    destruct Hdec as [H|H].
    + rewrite (mem_update_response _ _ _ _ _ Hx (Hyes H)). simpl. tauto.
    + rewrite (mem_update_rejected _ _ _ _ _ Hx (Hno H)). simpl.
      split; [discriminate | tauto].
  - intros db rest k Hk Hin. unfold Sql.step. rewrite sql_route_put, Hk.
    destruct (find_present _ _ Hin) as [x Hx].
    destruct Hdec as [H|H].
    + rewrite (sql_update_accepted _ _ _ _ _ Hx (Hyes H)). simpl. tauto.
    + rewrite (sql_update_rejected _ _ _ _ _ Hx (Hno H)). simpl.
      split; [discriminate | tauto].
  - rewrite (errors_strings fields n d Hn Hd).
    destruct (Nat.eqb (List.length (trim n)) 0);
      destruct (Nat.eqb (List.length (trim d)) 0);
      destruct (Nat.ltb_spec 100 (List.length n));
      destruct (Nat.ltb_spec 500 (List.length d)); simpl;
      intuition (try discriminate; try lia).
Qed.

Lemma length_limits_witness :
  status (fst (Mem.step (postItems widgetBody) Mem.initial)) = 201
  <-> fits 100 (lit " Widget ") /\ fits 500 (lit "A thing").
Proof.
  exact (proj1 (length_limits_apply_to_sent_text
                  [ (lit "name", JStr (lit " Widget "));
                    (lit "description", JStr (lit "A thing")) ]
                  (lit " Widget ") (lit "A thing") eq_refl eq_refl)
               Mem.initial).
Defined.

(** C2, as the specification words it, fails: the segment "12abc" is not the
    decimal text of an integer, yet [parseInt] reads it as 12, so GET
    /items/12abc looks the id up in the store (one store operation) and
    answers 404 "Item not found"; PUT and DELETE do the same. *)
Lemma numeric_prefix_reaches_store :
  parseInt (lit "12abc") = Some 12 /\
  Mem.step (onItem "GET" (lit "12abc") Empty) Mem.initial
    = (itemNotFound, Mem.initial) /\
  calls Mem.exec (Mem.handler (onItem "GET" (lit "12abc") Empty)) Mem.initial
    = 1%nat /\
  Sql.step (onItem "GET" (lit "12abc") Empty) Sql.empty
    = (itemNotFound, Sql.empty) /\
  calls Sql.exec (Sql.handler (onItem "GET" (lit "12abc") Empty)) Sql.empty
    = 1%nat /\
  fst (Mem.step (onItem "PUT" (lit "12abc") Empty) Mem.initial) = itemNotFound /\
  fst (Mem.step (onItem "DELETE" (lit "12abc") Empty) Mem.initial) = itemNotFound.
Proof. repeat split. Qed.

(** C2 (amended): on every id-based route (GET, PUT, DELETE on a path
    starting with /items/), whenever [parseInt] yields NaN on the :id
    segment (as on "abc" and on the empty segment), both servers answer 400
    {error:"Invalid item ID"} and the handler performs no store operation at
    all: it is the bare answer.  A segment with a numeric prefix, such as
    "12abc", parses and is looked up (see [numeric_prefix_reaches_store]). *)
Theorem nan_id_answers_400_without_store m rest b :
  idMethod m ->
  parseInt (idSegment rest) = None ->
  Mem.handler (onItem m rest b) = Ret invalidId /\
  Sql.handler (onItem m rest b) = Ret invalidId /\
  (forall s, Mem.step (onItem m rest b) s = (invalidId, s)) /\
  (forall db, Sql.step (onItem m rest b) db = (invalidId, db)).
Proof.
  intros Hm Hnan.
  assert (Mem.handler (onItem m rest b) = Ret invalidId /\
          Sql.handler (onItem m rest b) = Ret invalidId) as [H1 H2].
  { destruct Hm as [->|[->| ->]].
    - rewrite mem_route_get, sql_route_get, Hnan. auto.
    - rewrite mem_route_put, sql_route_put, Hnan. auto.
    - rewrite mem_route_delete, sql_route_delete, Hnan. auto. }
  unfold Mem.step, Sql.step. rewrite H1, H2. auto.
Qed.

Lemma nan_id_witness :
  Mem.handler (onItem "DELETE" (lit "abc") Empty) = Ret invalidId /\
  Sql.handler (onItem "DELETE" (lit "abc") Empty) = Ret invalidId.
Proof.
  destruct (nan_id_answers_400_without_store "DELETE" (lit "abc") Empty
              (or_intror (or_intror eq_refl)) eq_refl) as [H1 [H2 _]].
  exact (conj H1 H2).
Defined.




(** C4: after any sequence of requests, a POST /items with a body that
    parses and passes validation answers 201 with the item whose id is the
    store's next id and whose name and description are the trimmed [name]
    and [description] strings of the body; a following GET /items/<id>,
    with that id written in decimal, answers 200 with the same item. *)
Theorem create_then_read (reqs : list request) (b : payload) (data : value) :
  validated b = inr data ->
  strOf (get data (lit "name")) = Some (fieldText data "name") /\
  strOf (get data (lit "description")) = Some (fieldText data "description") /\
  fst (Mem.step (postItems b) (reached reqs)) =
    reply 201 (itemJson (mkItem (Mem.nextId (reached reqs))
                                (trim (fieldText data "name"))
                                (trim (fieldText data "description")))) /\
  fst (Mem.step (onItem "GET" (decimal (Mem.nextId (reached reqs))) Empty)
                (snd (Mem.step (postItems b) (reached reqs)))) =
    reply 200 (itemJson (mkItem (Mem.nextId (reached reqs))
                                (trim (fieldText data "name"))
                                (trim (fieldText data "description")))).
Proof.
  intros Hv. destruct (validated_inr _ _ Hv) as [_ [Hn Hd]].
  split; [exact Hn|]. split; [exact Hd|].
  assert (consistent (reached reqs)) as Hc.
  { apply serve_assigned. unfold consistent. simpl. lia. }
  set (s := reached reqs) in *.
  unfold Mem.step. rewrite mem_route_post, mem_route_get.
  rewrite (mem_create_accepted _ _ _ Hv). cbn [fst snd].
  split; [reflexivity|].
  pose proof (increasing_le _ _ _ Hc) as Hle.
  rewrite idSegment_decimal, parseInt_decimal by lia.
  rewrite mem_readOne. cbn [fst Mem.items].
  rewrite find_pushed;
    [reflexivity | eapply increasing_notin; [exact Hc | right; lia]
    | reflexivity].
Qed.

Lemma create_then_read_witness :
  fst (Mem.step (onItem "GET" (decimal (Mem.nextId (reached [postItems widgetBody]))) Empty)
                (snd (Mem.step (postItems widgetBody)
                               (reached [postItems widgetBody])))) =
    reply 200 (itemJson (mkItem 2 (lit "Widget") (lit "A thing"))).
Proof.
  exact (proj2 (proj2 (proj2
    (create_then_read [postItems widgetBody] widgetBody
       (Some (JObj [ (lit "name", JStr (lit " Widget "));
                     (lit "description", JStr (lit "A thing")) ]))
       eq_refl)))).
Defined.

Lemma consistent_reached reqs : consistent (reached reqs).
Proof. apply serve_assigned. unfold consistent. simpl. lia. Qed.

(** C5: in the state reached from the empty store by any sequence of
    requests (no reset), stored ids are pairwise distinct and strictly
    increasing in creation order; the ids that the successive 201 responses
    report are exactly 1, 2, ..., n in that order, whatever the request
    bodies contain, so no id is ever assigned twice, also not the id of an
    item deleted in between; every stored id is one of them and the next
    id is n + 1.  The relational store holds rows of the same ids in the
    same order, reports the same ids and will assign the same next id. *)
Theorem ids_unique_increasing_never_reused (reqs : list request) :
  NoDup (map id (Mem.items (reached reqs))) /\
  StronglySorted Z.lt (map id (Mem.items (reached reqs))) /\
  assignedIds (fst (serve Mem.step reqs Mem.initial)) =
    zrange 1 (List.length (assignedIds (fst (serve Mem.step reqs Mem.initial)))) /\
  (forall k, In k (map id (Mem.items (reached reqs))) ->
             In k (assignedIds (fst (serve Mem.step reqs Mem.initial)))) /\
  Mem.nextId (reached reqs) =
    1 + Z.of_nat (List.length (assignedIds (fst (serve Mem.step reqs Mem.initial)))) /\
  map id (Sql.rows (reachedSql reqs)) = map id (Mem.items (reached reqs)) /\
  assignedIds (fst (serve Sql.step reqs Sql.empty)) =
    assignedIds (fst (serve Mem.step reqs Mem.initial)) /\
  Sql.nextRowid (reachedSql reqs) = Mem.nextId (reached reqs).
Proof.
  pose proof (consistent_reached reqs) as Hc.
  destruct (serve_assigned reqs Mem.initial) as [_ [Ha Hn]].
  { unfold consistent. simpl. lia. }
  destruct (serve_tracks reqs _ _ tracks_initial) as [Hr Hrel].
  fold (reached reqs) in Hn, Hrel. fold (reachedSql reqs) in Hrel.
  change (Mem.nextId Mem.initial) with 1 in Ha, Hn.
  split; [eapply increasing_unique, Hc|].
  split; [eapply increasing_sorted, Hc|].
  split; [exact Ha|].
  split.
  - intros k Hk. rewrite Ha. apply zrange_in.
    apply in_map_iff in Hk. destruct Hk as [x [<- Hx]].
    pose proof (increasing_in _ _ _ _ Hc Hx). lia.
  - split; [exact Hn|].
    split; [rewrite (proj1 Hrel); apply map_id_stored|].
    split; [symmetry; apply similar_assignedIds, Hr|].
    apply tracks_nextRowid, Hrel.
Qed.

(** C6: after [resetMyServerData], from any state of either store, GET
    /items answers 200 with the empty array, and after any further
    requests none of which created an item, a POST /items with a body that
    passes validation answers 201 with an item of id 1. *)
Theorem reset_empties_and_restarts
  (s : Mem.store) (db : Sql.database) (reqs : list request)
  (b : payload) (data : value) :
  validated b = inr data ->
  assignedIds (fst (serve Mem.step reqs (Mem.resetMyServerData s))) = [] ->
  fst (Mem.step getItems (Mem.resetMyServerData s)) = reply 200 (JArr []) /\
  fst (Mem.step (postItems b)
                (snd (serve Mem.step reqs (Mem.resetMyServerData s)))) =
    reply 201 (itemJson (itemOf 1 data)) /\
  exists db0,
    Sql.resetMyServerData (Some db) = Some db0 /\
    fst (Sql.step getItems db0) = reply 200 (JArr []) /\
    fst (Sql.step (postItems b) (snd (serve Sql.step reqs db0))) =
      reply 201 (itemJson (itemOf 1 data)).
Proof.
  intros Hv Hnone.
  change (Mem.resetMyServerData s) with Mem.initial in *.
  destruct (serve_assigned reqs Mem.initial) as [_ [_ Hn]].
  { unfold consistent. simpl. lia. }
  rewrite Hnone in Hn.
  change (Mem.nextId Mem.initial + Z.of_nat (List.length (@nil Z))) with 1 in Hn.
  assert (fst (Mem.step (postItems b) (snd (serve Mem.step reqs Mem.initial)))
          = reply 201 (itemJson (itemOf 1 data))) as Hpost.
  { unfold Mem.step at 1.
    rewrite mem_route_post, (mem_create_accepted _ _ _ Hv).
    rewrite Hn. reflexivity. }
  split; [reflexivity|]. split; [exact Hpost|].
  exists Sql.empty. split; [reflexivity|]. split; [reflexivity|].
  destruct (serve_tracks reqs _ _ tracks_initial) as [_ Hrel].
  unfold Sql.step at 1. rewrite sql_route_post, (sql_create_accepted _ _ _ Hv).
  rewrite (tracks_nextRowid _ _ Hrel), Hn. reflexivity.
Qed.

Lemma reset_witness :
  fst (Mem.step (postItems widgetBody)
         (snd (serve Mem.step [getItems]
                 (Mem.resetMyServerData (reached [postItems widgetBody]))))) =
    reply 201 (itemJson (mkItem 1 (lit "Widget") (lit "A thing"))).
Proof.
  exact (proj1 (proj2
    (reset_empties_and_restarts (reached [postItems widgetBody]) Sql.empty
       [getItems] widgetBody
       (Some (JObj [ (lit "name", JStr (lit " Widget "));
                     (lit "description", JStr (lit "A thing")) ]))
       eq_refl eq_refl))).
Defined.

Lemma filter_removes_one x l :
  NoDup (map id l) -> In x l ->
  exists before after,
    l = before ++ x :: after /\
    filter (fun it => negb (hasId (id x) it)) l = before ++ after.
Proof.
  intros Hu Hin. destruct (in_split _ _ Hin) as [l1 [l2 ->]].
  exists l1, l2. split; [reflexivity|].
  rewrite map_app in Hu. simpl in Hu.
  pose proof (NoDup_remove_2 _ _ _ Hu) as Hn.
  rewrite in_app_iff in Hn.
  rewrite filter_app. simpl. unfold hasId at 2. rewrite Z.eqb_refl. simpl.
  rewrite !filter_notin by tauto. reflexivity.
Qed.

(** C7: in a store whose ids are pairwise distinct, DELETE /items/:id on
    the id of a stored item [x] answers 200 {message:"Item deleted",
    item: x} and removes exactly [x]: the items before and after it stay as
    they were, in their order.  A following GET /items lists exactly these
    remaining items in that order, and GET on the deleted id answers 404.
    The same holds of the relational server, whose listing is its rows
    ordered by id. *)
Theorem delete_removes_only_that_item
  (s : Mem.store) (db : Sql.database) (rest : jsstring) (x : Item) (b : payload) :
  parseInt (idSegment rest) = Some (id x) ->
  let keep := fun it => negb (hasId (id x) it) in
  (NoDup (map id (Mem.items s)) -> In x (Mem.items s) ->
   let s' := Mem.mkStore (filter keep (Mem.items s)) (Mem.nextId s) in
   Mem.step (onItem "DELETE" rest b) s = (reply 200 (deletedJson x), s') /\
   (exists before after,
      Mem.items s = before ++ x :: after /\ Mem.items s' = before ++ after) /\
   fst (Mem.step getItems s') =
     reply 200 (JArr (map itemJson (filter keep (Mem.items s)))) /\
   fst (Mem.step (onItem "GET" rest Empty) s') = itemNotFound) /\
  (NoDup (map id (Sql.rows db)) -> In x (Sql.rows db) ->
   let db' := Sql.mkDatabase (filter keep (Sql.rows db)) (Sql.sequence db) in
   Sql.step (onItem "DELETE" rest b) db = (reply 200 (deletedJson x), db') /\
   (exists before after,
      Sql.rows db = before ++ x :: after /\ Sql.rows db' = before ++ after) /\
   fst (Sql.step getItems db') =
     reply 200 (JArr (map itemJson (filter keep (Sql.orderById (Sql.rows db))))) /\
   fst (Sql.step (onItem "GET" rest Empty) db') = itemNotFound).
Proof.
  intros Hk keep. split.
  - intros Hu Hin s'.
    pose proof (find_unique (id x) _ x Hu Hin eq_refl) as Hf.
    split; [|split; [|split]].
    + unfold Mem.step. rewrite mem_route_delete, Hk.
      apply (mem_remove_present _ _ _ Hu Hf).
    + apply (filter_removes_one x _ Hu Hin).
    + reflexivity.
    + unfold Mem.step. rewrite mem_route_get, Hk, mem_readOne.
      unfold s'. cbn [Mem.items fst]. unfold keep.
      rewrite find_filtered. reflexivity.
  - intros Hu Hin db'.
    pose proof (find_unique (id x) _ x Hu Hin eq_refl) as Hf.
    split; [|split; [|split]].
    + unfold Sql.step. rewrite sql_route_delete, Hk.
      apply (sql_remove_present _ _ _ Hf).
    + apply (filter_removes_one x _ Hu Hin).
    + unfold Sql.step. rewrite sql_route_list, sql_listAll.
      unfold db'. cbn [Sql.rows fst]. rewrite orderById_filter. reflexivity.
    + unfold Sql.step. rewrite sql_route_get, Hk, sql_readOne.
      unfold db'. cbn [Sql.rows fst]. unfold keep.
      rewrite find_filtered. reflexivity.
Qed.

Lemma delete_witness :
  fst (Mem.step getItems
         (snd (Mem.step (onItem "DELETE" (lit "2") Empty)
                        (Mem.mkStore threeItems 4)))) =
    reply 200 (JArr [ itemJson (mkItem 1 (lit "a") (lit "x"));
                      itemJson (mkItem 3 (lit "c") (lit "z")) ]).
Proof.
  assert (NoDup (map id threeItems)) as Hu.
  { simpl. repeat constructor; simpl; intuition discriminate. }
  assert (In (mkItem 2 (lit "b") (lit "y")) threeItems) as Hin.
  { simpl. auto. }
  destruct (proj1 (delete_removes_only_that_item (Mem.mkStore threeItems 4)
                     Sql.empty (lit "2") (mkItem 2 (lit "b") (lit "y")) Empty
                     eq_refl) Hu Hin) as [Hstep [_ [Hlist _]]].
  rewrite Hstep. exact Hlist.
Defined.

(** C8: a PUT /items/:id whose id parses but matches no stored item is
    answered 404 {error:"Item not found"} whatever the body is (absent,
    not JSON, or failing validation), and the store is left as it was. *)
Theorem put_on_absent_id_is_404
  (s : Mem.store) (db : Sql.database) (rest : jsstring) (k : Z) (b : payload) :
  parseInt (idSegment rest) = Some k ->
  (~ In k (map id (Mem.items s)) ->
   Mem.step (onItem "PUT" rest b) s = (itemNotFound, s)) /\
  (~ In k (map id (Sql.rows db)) ->
   Sql.step (onItem "PUT" rest b) db = (itemNotFound, db)).
Proof.
  intros Hk. split; intros Hn.
  - unfold Mem.step. rewrite mem_route_put, Hk.
    apply mem_update_missing, find_none_notin, Hn.
  - unfold Sql.step. rewrite sql_route_put, Hk.
    apply sql_update_missing, find_none_notin, Hn.
Qed.

Lemma put_absent_witness :
  Mem.step (onItem "PUT" (lit "999") Unparsable) (Mem.mkStore threeItems 4) =
    (itemNotFound, Mem.mkStore threeItems 4).
Proof.
  apply (proj1 (put_on_absent_id_is_404 (Mem.mkStore threeItems 4) Sql.empty
                  (lit "999") 999 Unparsable eq_refl)).
  simpl. intuition discriminate.
Defined.

Lemma segment_two r :
  nth_error (split slash (lit "/items/" ++ r)) 2 = Some (idSegment r).
Proof.
  unfold idSegment, lit. simpl.
  destruct (split slash r) eqn:E; [now apply split_nonempty in E|].
  reflexivity.
Qed.

(** C9: for GET, PUT and DELETE, a path that starts with "/items/" goes to
    the id route, which reads the id from the second segment only: two such
    paths with the same second segment are handled alike, so
    "/items/<seg>/anything" is handled as "/items/<seg>"; and "/items/",
    whose second segment is empty, is answered 400 {error:"Invalid item
    ID"}, not 404 {error:"Not found"}.  The id used is [parseInt] of
    element 2 of the path split at "/": when it is NaN the answer is 400,
    otherwise the handler is the route of the method (read, update,
    delete) on that number; a GET then answers with the stored item of
    that id, or 404 when there is none. *)
Theorem id_routes_read_second_segment (m : string) (b : payload) :
  idMethod m ->
  (forall r r', idSegment r = idSegment r' ->
     Mem.handler (onItem m r b) = Mem.handler (onItem m r' b) /\
     Sql.handler (onItem m r b) = Sql.handler (onItem m r' b)) /\
  (forall seg rest, ~ In slash seg ->
     Mem.handler (onItem m (seg ++ slash :: rest) b) = Mem.handler (onItem m seg b) /\
     Sql.handler (onItem m (seg ++ slash :: rest) b) = Sql.handler (onItem m seg b)) /\
  Mem.handler (onItem m [] b) = Ret invalidId /\
  Sql.handler (onItem m [] b) = Ret invalidId /\
  (forall r,
     nth_error (split slash (lit "/items/" ++ r)) 2 = Some (idSegment r)) /\
  (forall r,
     parseInt (idSegment r) = None ->
     Mem.handler (onItem m r b) = Ret invalidId /\
     Sql.handler (onItem m r b) = Ret invalidId) /\
  (forall r k,
     parseInt (idSegment r) = Some k ->
     (m = "GET" ->
      Mem.handler (onItem m r b) = Mem.readOne (Some k) /\
      Sql.handler (onItem m r b) = Sql.readOne (Some k)) /\
     (m = "PUT" ->
      Mem.handler (onItem m r b) = Mem.update (Some k) b /\
      Sql.handler (onItem m r b) = Sql.update (Some k) b) /\
     (m = "DELETE" ->
      Mem.handler (onItem m r b) = Mem.remove (Some k) /\
      Sql.handler (onItem m r b) = Sql.remove (Some k))) /\
  (forall r k s db,
     parseInt (idSegment r) = Some k -> m = "GET" ->
     Mem.step (onItem m r b) s =
       (match find (hasId k) (Mem.items s) with
        | Some it => reply 200 (itemJson it)
        | None => itemNotFound
        end, s) /\
     Sql.step (onItem m r b) db =
       (match find (hasId k) (Sql.rows db) with
        | Some it => reply 200 (itemJson it)
        | None => itemNotFound
        end, db)).
Proof.
  intros Hm.
  assert (forall r r', idSegment r = idSegment r' ->
     Mem.handler (onItem m r b) = Mem.handler (onItem m r' b) /\
     Sql.handler (onItem m r b) = Sql.handler (onItem m r' b)) as Hsame.
  { intros r r' E. destruct Hm as [->|[->| ->]].
    - rewrite !mem_route_get, !sql_route_get, E. auto.
    - rewrite !mem_route_put, !sql_route_put, E. auto.
    - rewrite !mem_route_delete, !sql_route_delete, E. auto. }
  split; [exact Hsame|]. split.
  { intros seg rest Hseg. apply Hsame.
    rewrite idSegment_prefix, idSegment_no_slash by exact Hseg. reflexivity. }
  split; [destruct Hm as [->|[->| ->]]; reflexivity|].
  split; [destruct Hm as [->|[->| ->]]; reflexivity|].
  split; [exact segment_two|].
  split.
  { intros r Hnan. destruct Hm as [->|[->| ->]].
    - rewrite mem_route_get, sql_route_get, Hnan. auto.
    - rewrite mem_route_put, sql_route_put, Hnan. auto.
    - rewrite mem_route_delete, sql_route_delete, Hnan. auto. }
  split.
  { intros r k Hk. split; [|split]; intros ->.
    - rewrite mem_route_get, sql_route_get, Hk. auto.
    - rewrite mem_route_put, sql_route_put, Hk. auto.
    - rewrite mem_route_delete, sql_route_delete, Hk. auto. }
  intros r k s db Hk ->. unfold Mem.step, Sql.step.
  rewrite mem_route_get, sql_route_get, Hk, mem_readOne, sql_readOne. auto.
Qed.

Lemma second_segment_witness :
  Mem.handler (onItem "GET" (lit "1/anything") Empty) =
  Mem.handler (onItem "GET" (lit "1") Empty).
Proof.
  refine (proj1 (proj1 (proj2 (id_routes_read_second_segment "GET" Empty
                                 (or_introl eq_refl)))
                       (lit "1") (lit "anything") _)).
  simpl. intuition discriminate.
Defined.

(** C10: a POST /items, or a PUT on a stored id, whose body is empty or is
    JSON text for a falsy value (null, false, 0 or "") is answered 400
    {error:"Validation failed", details:["Request body is required"]}, not
    with a field-level error nor with "Invalid JSON"; the store is left as
    it was. *)
Theorem falsy_body_is_required (b : payload) :
  In b [Empty; Json JNull; Json (JBool false); Json (JNum 0); Json (JStr [])] ->
  (forall s, Mem.step (postItems b) s = (bodyRequired, s)) /\
  (forall db, Sql.step (postItems b) db = (bodyRequired, db)) /\
  (forall s rest k,
     parseInt (idSegment rest) = Some k -> In k (map id (Mem.items s)) ->
     Mem.step (onItem "PUT" rest b) s = (bodyRequired, s)) /\
  (forall db rest k,
     parseInt (idSegment rest) = Some k -> In k (map id (Sql.rows db)) ->
     Sql.step (onItem "PUT" rest b) db = (bodyRequired, db)).
Proof.
  intros Hb.
  assert (validated b = inl bodyRequired) as Hv.
  { apply validated_missing. simpl in Hb.
    destruct Hb as [<-|[<-|[<-|[<-|[<-|[]]]]]]; reflexivity. }
  split; [|split; [|split]].
  - intros s. unfold Mem.step. rewrite mem_route_post.
    apply mem_create_rejected, Hv.
  - intros db. unfold Sql.step. rewrite sql_route_post.
    apply sql_create_rejected, Hv.
  - intros s rest k Hk Hin. unfold Mem.step. rewrite mem_route_put, Hk.
    destruct (find_present _ _ Hin) as [x Hx].
    apply (mem_update_rejected _ _ _ _ _ Hx Hv).
  - intros db rest k Hk Hin. unfold Sql.step. rewrite sql_route_put, Hk.
    destruct (find_present _ _ Hin) as [x Hx].
    apply (sql_update_rejected _ _ _ _ _ Hx Hv).
Qed.

Lemma falsy_body_witness :
  Mem.step (postItems (Json (JNum 0))) Mem.initial = (bodyRequired, Mem.initial).
Proof.
  apply (proj1 (falsy_body_is_required (Json (JNum 0))
                  (or_intror (or_intror (or_intror (or_introl eq_refl)))))).
Defined.

(* ================================================================= *)
(** * Further properties of the handlers *)

(** ** Trimming *)

Lemma trimStart_noLead s : noLead (trimStart s).
Proof.
  induction s as [|c s IH]; simpl; [exact I|].
  destruct (isWhiteSpace c) eqn:E; [exact IH | exact E].
Qed.

Lemma trimStart_fixed l : noLead l -> trimStart l = l.
Proof. destruct l as [|c l]; simpl; [reflexivity|]. intros ->. reflexivity. Qed.

Lemma trimStart_suffix s : exists p, s = p ++ trimStart s.
Proof.
  induction s as [|c s [p IH]]; simpl; [exists []; reflexivity|].
  destruct (isWhiteSpace c).
  - exists (c :: p). simpl. f_equal. exact IH.
  - exists []. reflexivity.
Qed.

Lemma trimStart_length s : (List.length (trimStart s) <= List.length s)%nat.
Proof.
  destruct (trimStart_suffix s) as [p H]. rewrite H at 2.
  rewrite length_app. lia.
Qed.

Lemma trimEnd_prefix s : exists q, s = trimEnd s ++ q.
Proof.
  unfold trimEnd. destruct (trimStart_suffix (rev s)) as [p H].
  exists (rev p). rewrite <- rev_app_distr, <- H, rev_involutive. reflexivity.
Qed.

Lemma trimEnd_length s : (List.length (trimEnd s) <= List.length s)%nat.
Proof.
  destruct (trimEnd_prefix s) as [q H]. rewrite H at 2.
  rewrite length_app. lia.
Qed.

Lemma trimEnd_noLead s : noLead s -> noLead (trimEnd s).
Proof.
  intros H. destruct (trimEnd_prefix s) as [q E].
  destruct (trimEnd s) as [|c t]; [exact I|].
  rewrite E in H. exact H.
Qed.

Lemma trimEnd_fixed s : noLead (rev s) -> trimEnd s = s.
Proof.
  intros H. unfold trimEnd. rewrite (trimStart_fixed _ H).
  apply rev_involutive.
Qed.

Lemma trim_length s : (List.length (trim s) <= List.length s)%nat.
Proof.
  unfold trim. pose proof (trimEnd_length (trimStart s)).
  pose proof (trimStart_length s). lia.
Qed.

Lemma trim_trimmed s : trimmed (trim s).
Proof.
  unfold trimmed, trim at 1.
  rewrite (trimStart_fixed (trim s)).
  - apply trimEnd_fixed. unfold trim, trimEnd. rewrite rev_involutive.
    apply trimStart_noLead.
  - unfold trim. apply trimEnd_noLead, trimStart_noLead.
Qed.

(** ** Decimal text followed by other characters *)

Lemma decimalFuel_app f : forall n acc,
  decimalFuel f n acc = decimalFuel f n [] ++ acc.
Proof.
  induction f as [|f IH]; intros n acc; cbn [decimalFuel]; [reflexivity|].
  destruct (n <? 10); [reflexivity|].
  rewrite IH. rewrite (IH (n / 10) [Z.to_N (48 + n mod 10)]).
  rewrite <- app_assoc. reflexivity.
Qed.

Lemma digits_stops acc rest : stops rest -> digits 10 acc rest = acc.
Proof.
  destruct rest as [|c t]; simpl; [reflexivity|].
  unfold notDigit. intros ->. reflexivity.
Qed.

Lemma parseInt_decimal_then n rest :
  1 <= n -> stops rest -> parseInt (decimal n ++ rest) = Some n.
Proof.
  intros H Hs. unfold decimal. rewrite <- decimalFuel_app.
  destruct (decimalFuel_head _ n rest (decimal_fuel n H)) as [c [t [E Hc]]].
  destruct (digits_decimalFuel _ n rest (decimal_fuel n H)) as [k [_ D]].
  specialize (D None). rewrite E, (digits_stops _ _ Hs) in D.
  destruct (leading_digit c Hc) as [W [M [P Z0]]].
  unfold parseInt. rewrite E. simpl trimStart. rewrite W, M, P.
  destruct t as [|x t']; rewrite ?Z0; cbn [andb]; rewrite D; f_equal; lia.
Qed.

Lemma idSegment_app a rest :
  ~ In slash a -> idSegment (a ++ rest) = a ++ idSegment rest.
Proof.
  unfold idSegment. induction a as [|c a IH]; intros H; [reflexivity|].
  simpl app. rewrite split_cons_other.
  - simpl. rewrite IH; [reflexivity|]. simpl in H. tauto.
  - apply N.eqb_neq. simpl in H. intros ->. tauto.
Qed.

Lemma idSegment_stops rest : stops rest -> stops (idSegment rest).
Proof.
  unfold idSegment. destruct rest as [|c t]; [intros; exact I|].
  intros H. simpl split. destruct (c =? slash)%N; [exact I|].
  destruct (split slash t); exact H.
Qed.

(** X1: the decimal text of a positive id, also when followed by any text
    that does not start with a decimal digit, is read back by the id
    routes as that id: on GET, PUT and DELETE both servers handle
    "/items/<n><junk>" exactly as "/items/<n>". *)
Theorem id_text_selects_id (m : string) (b : payload) (n : Z) (junk : jsstring) :
  idMethod m -> 1 <= n -> stops junk ->
  parseInt (idSegment (decimal n ++ junk)) = Some n /\
  Mem.handler (onItem m (decimal n ++ junk) b) = Mem.handler (onItem m (decimal n) b) /\
  Sql.handler (onItem m (decimal n ++ junk) b) = Sql.handler (onItem m (decimal n) b).
Proof.
  intros Hm Hn Hs.
  assert (~ In slash (decimal n)) as Hd.
  { unfold decimal. apply decimalFuel_no_slash. simpl. tauto. }
  assert (parseInt (idSegment (decimal n ++ junk)) = Some n) as H1.
  { rewrite (idSegment_app _ _ Hd).
    apply parseInt_decimal_then; [exact Hn | apply idSegment_stops, Hs]. }
  assert (parseInt (idSegment (decimal n)) = Some n) as H2.
  { rewrite idSegment_decimal. apply parseInt_decimal. exact Hn. }
  split; [exact H1|].
  destruct Hm as [->|[->| ->]].
  - rewrite !mem_route_get, !sql_route_get, H1, H2. auto.
  - rewrite !mem_route_put, !sql_route_put, H1, H2. auto.
  - rewrite !mem_route_delete, !sql_route_delete, H1, H2. auto.
Qed.

Lemma id_text_witness :
  parseInt (idSegment (decimal 42 ++ lit "abc/x")) = Some 42.
Proof.
  refine (proj1 (id_text_selects_id "GET" Empty 42 (lit "abc/x")
                   (or_introl eq_refl) _ _)).
  - lia.
  - reflexivity.
Defined.

(** X2: an OPTIONS request, on any path and with any body, is answered 200
    with the three CORS headers only and no body, and the handler touches
    no store: it is the bare answer on both servers. *)
Theorem options_answers_without_store (req : request) :
  method req = "OPTIONS" ->
  Mem.handler req = Ret optionsResponse /\
  Sql.handler req = Ret optionsResponse /\
  status optionsResponse = 200 /\ headers optionsResponse = cors /\
  content optionsResponse = None.
Proof.
  intros H. unfold Mem.handler, Sql.handler. rewrite H. simpl. auto.
Qed.

Lemma options_witness :
  Mem.handler (mkRequest "OPTIONS" (Some (lit "/items/abc")) Unparsable)
  = Ret optionsResponse.
Proof.
  exact (proj1 (options_answers_without_store
                  (mkRequest "OPTIONS" (Some (lit "/items/abc")) Unparsable)
                  eq_refl)).
Defined.

Lemma eqb_other (a b : string) : a <> b -> (a =? b)%string = false.
Proof. intros H. apply String.eqb_neq. exact H. Qed.

(** X3: what falls through to the default route.  A request whose method is
    none of OPTIONS, GET, POST, PUT, DELETE; a request (not OPTIONS) whose
    path is neither "/items" nor starts with "/items/"; a POST on any path
    other than "/items" (also "/items/" and "/items/1"); and a PUT or
    DELETE on a path that does not start with "/items/" (also "/items"
    itself) are all answered 404 {error:"Not found"} without any store
    operation, on both servers. *)
Theorem unmatched_routes_are_not_found (req : request) :
  method req <> "OPTIONS" ->
  (method req <> "GET" /\ method req <> "POST" /\ method req <> "PUT"
   /\ method req <> "DELETE")
  \/ (pathIs (pathname req) "/items" = false
      /\ pathStartsWith (pathname req) "/items/" = false)
  \/ (method req = "POST" /\ pathIs (pathname req) "/items" = false)
  \/ ((method req = "PUT" \/ method req = "DELETE")
      /\ pathStartsWith (pathname req) "/items/" = false) ->
  Mem.handler req = Ret notFound /\ Sql.handler req = Ret notFound.
Proof.
  intros Ho H. unfold Mem.handler, Sql.handler.
  rewrite (eqb_other _ _ Ho).
  destruct H as [[Hg [Hp [Hu Hd]]]|[[H1 H2]|[[Hm H1]|[Hm H2]]]].
  - rewrite (eqb_other _ _ Hg), (eqb_other _ _ Hp), (eqb_other _ _ Hu),
      (eqb_other _ _ Hd). simpl. auto.
  - rewrite H1, H2, !andb_false_r. auto.
  - rewrite Hm, H1. simpl. auto.
  - rewrite H2, !andb_false_r. destruct Hm as [-> | ->]; simpl; auto.
Qed.

Lemma unmatched_witness :
  Mem.handler (mkRequest "PATCH" (Some (lit "/items/1")) Empty) = Ret notFound /\
  Sql.handler (mkRequest "PATCH" (Some (lit "/items/1")) Empty) = Ret notFound.
Proof.
  apply (unmatched_routes_are_not_found
           (mkRequest "PATCH" (Some (lit "/items/1")) Empty)).
  - discriminate.
  - left. repeat split; discriminate.
Defined.

(** ** Answers under any behaviour of the store *)

Lemma answers_run {E : Type -> Type} {St} (P : response -> Prop)
  (h : forall X, E X -> St -> X * St) (m : prog E response) :
  answers P m -> forall s, P (fst (run h m s)).
Proof.
  induction m as [r|X e k IH]; simpl; intros H s; [exact H|].
  destruct (h X e s) as [x s']. apply IH, H.
Qed.

Lemma answers_weaken {E : Type -> Type} (P Q : response -> Prop)
  (m : prog E response) :
  (forall r, P r -> Q r) -> answers P m -> answers Q m.
Proof.
  intros HPQ. induction m as [r|X e k IH]; simpl; intros H; [auto|].
  intros x. apply IH, H.
Qed.

Lemma within_calls {E : Type -> Type} {St} (n : nat)
  (h : forall X, E X -> St -> X * St) (m : prog E response) :
  within n m -> forall s, (calls h m s <= n)%nat.
Proof.
  revert n. induction m as [r|X e k IH]; simpl; intros n H s; [lia|].
  destruct n as [|n]; [contradiction|].
  destruct (h X e s) as [x s']. specialize (IH x n (H x) s'). lia.
Qed.

Lemma validated_inl_json b r : validated b = inl r -> jsonAnswer [400] r.
Proof.
  unfold validated. destruct (parseBody b) as [v|].
  - destruct (negb (isValid (validateItemInput v))); intros H; inversion H;
      split; simpl; auto.
  - intros H. inversion H. split; simpl; auto.
Qed.

Lemma jsonAnswer_incl codes codes' r :
  incl codes codes' -> jsonAnswer codes r -> jsonAnswer codes' r.
Proof. intros Hi [H1 H2]. split; [exact H1 | apply Hi, H2]. Qed.

Ltac json_answer :=
  match goal with
  | H : validated _ = inl ?r |- jsonAnswer _ ?r =>
      apply (jsonAnswer_incl [400]);
      [intros ? [<-|[]]; simpl; tauto | apply (validated_inl_json _ _ H)]
  | |- jsonAnswer _ _ => split; [reflexivity | simpl; tauto]
  end.

Ltac walk_answers :=
  repeat (cbn [answers bind trigger];
          match goal with
          | |- forall _, _ => intro
          | |- jsonAnswer _ _ => json_answer
          | |- _ = optionsResponse => reflexivity
          | |- answers _ (match ?x with _ => _ end) => destruct x eqn:?
          end).

Ltac walk_within :=
  repeat match goal with
         | |- True => exact I
         | |- within _ (Ret _) => exact I
         | |- within _ (match ?x with _ => _ end) => destruct x
         | |- within _ (bind _ _) => cbn [bind trigger]
         | |- within (S ?n) (Vis ?e ?k) =>
             change (forall x, within n (k x)); intro; cbv beta
         end.

Lemma mem_answers req :
  answers (fun r => if (method req =? "OPTIONS")%string
                    then r = optionsResponse
                    else jsonAnswer [200; 201; 400; 404] r)
          (Mem.handler req).
Proof.
  unfold Mem.handler, Mem.listAll, Mem.readOne, Mem.create, Mem.update,
    Mem.remove.
  destruct (method req =? "OPTIONS")%string; walk_answers.
Qed.

Lemma sql_answers req :
  answers (fun r => if (method req =? "OPTIONS")%string
                    then r = optionsResponse
                    else jsonAnswer [200; 201; 400; 404; 500] r)
          (Sql.handler req).
Proof.
  unfold Sql.handler, Sql.listAll, Sql.readOne, Sql.create, Sql.update,
    Sql.remove.
  destruct (method req =? "OPTIONS")%string; walk_answers.
Qed.

(** X4: every response of either server carries the three CORS headers:
    an OPTIONS request gets exactly these and no body, every other request
    gets them followed by Content-Type: application/json -- whatever the
    store operations return (also when the database throws). *)
Theorem every_response_has_cors_headers
  {MemSt SqlSt : Type}
  (hm : forall X, Mem.memE X -> MemSt -> X * MemSt)
  (hs : forall X, Sql.sqlE X -> SqlSt -> X * SqlSt)
  (req : request) (s : MemSt) (db : SqlSt) :
  (method req = "OPTIONS" ->
   fst (run hm (Mem.handler req) s) = optionsResponse /\
   fst (run hs (Sql.handler req) db) = optionsResponse) /\
  (method req <> "OPTIONS" ->
   headers (fst (run hm (Mem.handler req) s)) = jsonHeaders /\
   headers (fst (run hs (Sql.handler req) db)) = jsonHeaders) /\
  (exists rest, headers (fst (run hm (Mem.handler req) s)) = cors ++ rest) /\
  (exists rest, headers (fst (run hs (Sql.handler req) db)) = cors ++ rest).
Proof.
  pose proof (answers_run _ hm _ (mem_answers req) s) as Hm.
  pose proof (answers_run _ hs _ (sql_answers req) db) as Hs.
  simpl in Hm, Hs.
  destruct (String.eqb_spec (method req) "OPTIONS") as [E|E].
  - rewrite Hm, Hs. repeat split; try tauto; exists []; reflexivity.
  - destruct Hm as [Hm _], Hs as [Hs _]. rewrite Hm, Hs.
    repeat split; try tauto; eexists; reflexivity.
Qed.

Lemma cors_headers_witness :
  headers (fst (run brokenExec (Sql.handler getItems) Sql.empty)) = jsonHeaders.
Proof.
  refine (proj2 (proj1 (proj2
    (every_response_has_cors_headers Mem.exec brokenExec getItems
       Mem.initial Sql.empty)) _)).
  discriminate.
Defined.

(** X5: the status codes.  Whatever the store operations return, the
    in-memory server answers only 200, 201, 400 or 404 and the relational
    server only 200, 201, 400, 404 or 500; with a database that never
    throws the relational server never answers 500. *)
Theorem status_codes_are_bounded
  {MemSt SqlSt : Type}
  (hm : forall X, Mem.memE X -> MemSt -> X * MemSt)
  (hs : forall X, Sql.sqlE X -> SqlSt -> X * SqlSt)
  (req : request) (s : MemSt) (db : SqlSt) (d : Sql.database) :
  In (status (fst (run hm (Mem.handler req) s))) [200; 201; 400; 404] /\
  In (status (fst (run hs (Sql.handler req) db))) [200; 201; 400; 404; 500] /\
  status (fst (Sql.step req d)) <> 500.
Proof.
  pose proof (answers_run _ hm _ (mem_answers req) s) as Hm.
  pose proof (answers_run _ hs _ (sql_answers req) db) as Hs.
  simpl in Hm, Hs.
  split; [|split].
  - destruct (method req =? "OPTIONS")%string;
      [rewrite Hm; simpl; tauto | apply Hm].
  - destruct (method req =? "OPTIONS")%string;
      [rewrite Hs; simpl; tauto | apply Hs].
  - unfold Sql.step.
    destruct (routes_alike req) as
      [[r [Hr [_ ->]]]|[[_ ->]|[[k [_ ->]]|[[_ ->]|[[k [_ ->]]|[k [_ ->]]]]]]].
    + destruct Hr as [-> | ->]; discriminate.
    + discriminate.
    + destruct k as [k|]; [rewrite sql_readOne|]; simpl; [|discriminate].
      destruct (find (hasId k) (Sql.rows d)); discriminate.
    + destruct (validated (body req)) as [r|data] eqn:Hv.
      * rewrite (sql_create_rejected _ _ _ Hv). simpl.
        rewrite (validated_inl_status _ _ Hv). discriminate.
      * rewrite (sql_create_accepted _ _ _ Hv). discriminate.
    + destruct k as [k|]; [|discriminate].
      destruct (find (hasId k) (Sql.rows d)) as [x|] eqn:Hf.
      * destruct (validated (body req)) as [r|data] eqn:Hv.
        -- rewrite (sql_update_rejected _ _ _ _ _ Hf Hv). simpl.
           rewrite (validated_inl_status _ _ Hv). discriminate.
        -- rewrite (sql_update_accepted _ _ _ _ _ Hf Hv). discriminate.
      * rewrite (sql_update_missing _ _ _ Hf). discriminate.
    + destruct k as [k|]; [|discriminate].
      destruct (find (hasId k) (Sql.rows d)) as [x|] eqn:Hf.
      * rewrite (sql_remove_present _ _ _ Hf). discriminate.
      * rewrite (sql_remove_missing _ _ Hf). discriminate.
Qed.

(** X6: one request costs few store operations, whatever they return: the
    in-memory handler touches its array and counter at most three times
    (PUT: read, assign, read back), the relational handler calls the
    database at most twice (PUT and DELETE: select, then write). *)
Theorem store_operations_are_bounded
  {MemSt SqlSt : Type}
  (hm : forall X, Mem.memE X -> MemSt -> X * MemSt)
  (hs : forall X, Sql.sqlE X -> SqlSt -> X * SqlSt)
  (req : request) (s : MemSt) (db : SqlSt) :
  (calls hm (Mem.handler req) s <= 3)%nat /\
  (calls hs (Sql.handler req) db <= 2)%nat.
Proof.
  split; apply within_calls.
  - unfold Mem.handler, Mem.listAll, Mem.readOne, Mem.create, Mem.update,
      Mem.remove. walk_within.
  - unfold Sql.handler, Sql.listAll, Sql.readOne, Sql.create, Sql.update,
      Sql.remove. walk_within.
Qed.

(** ** Which requests change the store *)

Lemma mem_changes_only_on_success req s :
  snd (Mem.step req s) = s \/
  status (fst (Mem.step req s)) = 200 \/ status (fst (Mem.step req s)) = 201.
Proof.
  unfold Mem.step.
  destruct (routes_alike req) as
    [[r [Hr [-> _]]]|[[-> _]|[[k [-> _]]|[[-> _]|[[k [-> _]]|[k [-> _]]]]]]].
  - left. reflexivity.
  - left. reflexivity.
  - left. destruct k as [k|]; [rewrite mem_readOne|]; reflexivity.
  - destruct (validated (body req)) as [r|data] eqn:Hv.
    + left. rewrite (mem_create_rejected _ _ _ Hv). reflexivity.
    + right. right. rewrite (mem_create_accepted _ _ _ Hv). reflexivity.
  - destruct k as [k|]; [|left; reflexivity]. unfold Mem.update.
    cbn [bind trigger run Mem.exec].
    destruct (findIndex (hasId k) (Mem.items s)); [|left; reflexivity].
    destruct (validated (body req)) as [r|data] eqn:Hv; [left; reflexivity|].
    destruct (validated_inr _ _ Hv) as [_ [-> ->]]. right. left. reflexivity.
  - destruct k as [k|]; [|left; reflexivity]. unfold Mem.remove.
    cbn [bind trigger run Mem.exec].
    destruct (findIndex (hasId k) (Mem.items s)) as [i|]; [|left; reflexivity].
    cbn [bind trigger run Mem.exec].
    destruct (Mem.splice i (Mem.items s)). right. left. reflexivity.
Qed.

Lemma sql_changes_only_on_success req db :
  snd (Sql.step req db) = db \/
  status (fst (Sql.step req db)) = 200 \/ status (fst (Sql.step req db)) = 201.
Proof.
  unfold Sql.step.
  destruct (routes_alike req) as
    [[r [Hr [_ ->]]]|[[_ ->]|[[k [_ ->]]|[[_ ->]|[[k [_ ->]]|[k [_ ->]]]]]]].
  - left. reflexivity.
  - left. reflexivity.
  - left. destruct k as [k|]; [rewrite sql_readOne|]; reflexivity.
  - destruct (validated (body req)) as [r|data] eqn:Hv.
    + left. rewrite (sql_create_rejected _ _ _ Hv). reflexivity.
    + right. right. rewrite (sql_create_accepted _ _ _ Hv). reflexivity.
  - destruct k as [k|]; [|left; reflexivity].
    destruct (find (hasId k) (Sql.rows db)) as [x|] eqn:Hf.
    + destruct (validated (body req)) as [r|data] eqn:Hv.
      * left. rewrite (sql_update_rejected _ _ _ _ _ Hf Hv). reflexivity.
      * right. left. rewrite (sql_update_accepted _ _ _ _ _ Hf Hv). reflexivity.
    + left. rewrite (sql_update_missing _ _ _ Hf). reflexivity.
  - destruct k as [k|]; [|left; reflexivity].
    destruct (find (hasId k) (Sql.rows db)) as [x|] eqn:Hf.
    + right. left. rewrite (sql_remove_present _ _ _ Hf). reflexivity.
    + left. rewrite (sql_remove_missing _ _ Hf). reflexivity.
Qed.

(** X7: a request that is answered with an error status (400 or above)
    leaves the store exactly as it was, on both servers: a rejected POST
    does not consume an id, a rejected PUT does not touch the item. *)
Theorem errors_leave_store_unchanged
  (req : request) (s : Mem.store) (db : Sql.database) :
  (400 <= status (fst (Mem.step req s)) -> snd (Mem.step req s) = s) /\
  (400 <= status (fst (Sql.step req db)) -> snd (Sql.step req db) = db).
Proof.
  split; intros H.
  - destruct (mem_changes_only_on_success req s) as [E|[E|E]];
      [exact E | lia | lia].
  - destruct (sql_changes_only_on_success req db) as [E|[E|E]];
      [exact E | lia | lia].
Qed.

Lemma errors_unchanged_witness :
  snd (Mem.step (postItems paddedBody) (Mem.mkStore threeItems 4))
  = Mem.mkStore threeItems 4.
Proof.
  apply (proj1 (errors_leave_store_unchanged (postItems paddedBody)
                  (Mem.mkStore threeItems 4) Sql.empty)).
  vm_compute. discriminate.
Defined.

(** X8: GET requests are read-only: whatever the path, a GET leaves the
    store of either server exactly as it was. *)
Theorem get_is_read_only (req : request) (s : Mem.store) (db : Sql.database) :
  method req = "GET" ->
  snd (Mem.step req s) = s /\ snd (Sql.step req db) = db.
Proof.
  intros H. unfold Mem.step, Sql.step, Mem.handler, Sql.handler. rewrite H.
  cbn [String.eqb Ascii.eqb Bool.eqb andb].
  destruct (pathIs (pathname req) "/items"); [split; reflexivity|].
  destruct (pathStartsWith (pathname req) "/items/"); [|split; reflexivity].
  destruct (segmentId (pathname req)) as [k|]; [|split; reflexivity].
  rewrite mem_readOne, sql_readOne. split; reflexivity.
Qed.

Lemma get_read_only_witness :
  snd (Mem.step (onItem "GET" (lit "2") Empty) (Mem.mkStore threeItems 4))
  = Mem.mkStore threeItems 4.
Proof.
  exact (proj1 (get_is_read_only (onItem "GET" (lit "2") Empty)
                  (Mem.mkStore threeItems 4) Sql.empty eq_refl)).
Defined.

Lemma map_update_one x before after n d :
  NoDup (map id (before ++ x :: after)) ->
  map (fun it => if hasId (id x) it then mkItem (id it) n d else it)
      (before ++ x :: after)
  = before ++ mkItem (id x) n d :: after.
Proof.
  intros Hu. rewrite map_app in Hu. simpl in Hu.
  pose proof (NoDup_remove_2 _ _ _ Hu) as Hn. rewrite in_app_iff in Hn.
  rewrite map_app. simpl. unfold hasId at 2. rewrite Z.eqb_refl.
  rewrite !map_update_notin by tauto. reflexivity.
Qed.

Lemma map_replace_notin (f : Item -> Item) k l :
  ~ In k (map id l) -> map (fun it => if hasId k it then f it else it) l = l.
Proof.
  induction l as [|x l IH]; simpl; [reflexivity|]. intros H.
  unfold hasId at 1. destruct (Z.eqb_spec (id x) k); [tauto|].
  f_equal. apply IH. tauto.
Qed.

Lemma map_replace_one (f : Item -> Item) x before after :
  NoDup (map id (before ++ x :: after)) ->
  map (fun it => if hasId (id x) it then f it else it) (before ++ x :: after)
  = before ++ f x :: after.
Proof.
  intros Hu. rewrite map_app in Hu. simpl in Hu.
  pose proof (NoDup_remove_2 _ _ _ Hu) as Hn. rewrite in_app_iff in Hn.
  rewrite map_app. simpl. unfold hasId at 2. rewrite Z.eqb_refl.
  rewrite !map_replace_notin by tauto. reflexivity.
Qed.


(** X9: frame property of PUT.  In a store with pairwise distinct ids, a
    PUT on the id of a stored item [x] with an accepted body answers 200
    with the item of the same id and the trimmed new fields, puts that
    item at the place of [x], and leaves the items before and after it,
    and the next id, as they were; a following GET on the id returns the
    new item.  On the relational server the row written, and returned by
    the following GET, is that item as UTF-8 text holds it (an unpaired
    surrogate read back as U+FFFD). *)
Theorem put_replaces_in_place
  (s : Mem.store) (db : Sql.database) (rest : jsstring) (x : Item)
  (before after : list Item) (b : payload) (data : value) :
  parseInt (idSegment rest) = Some (id x) ->
  validated b = inr data ->
  (Mem.items s = before ++ x :: after -> NoDup (map id (Mem.items s)) ->
   let s' := Mem.mkStore (before ++ itemOf (id x) data :: after) (Mem.nextId s) in
   Mem.step (onItem "PUT" rest b) s = (reply 200 (itemJson (itemOf (id x) data)), s') /\
   fst (Mem.step (onItem "GET" rest Empty) s') = reply 200 (itemJson (itemOf (id x) data))) /\
  (Sql.rows db = before ++ x :: after -> NoDup (map id (Sql.rows db)) ->
   let db' := Sql.mkDatabase (before ++ Sql.stored (itemOf (id x) data) :: after)
                             (Sql.sequence db) in
   Sql.step (onItem "PUT" rest b) db = (reply 200 (itemJson (itemOf (id x) data)), db') /\
   fst (Sql.step (onItem "GET" rest Empty) db') =
     reply 200 (itemJson (Sql.stored (itemOf (id x) data)))).
Proof.
  intros Hk Hv.
  assert (forall l y, l = before ++ x :: after -> NoDup (map id l) ->
            id y = id x ->
            find (hasId (id x)) l = Some x /\
            find (hasId (id x)) (before ++ y :: after) = Some y) as Hfind.
  { intros l y -> Hu Hy. split.
    - apply find_unique; [exact Hu | apply in_elt | reflexivity].
    - apply find_unique; [|apply in_elt | exact Hy].
      rewrite map_app in *. simpl in *. rewrite Hy. exact Hu. }
  split.
  - intros Hi Hu s'.
    destruct (Hfind _ (itemOf (id x) data) Hi Hu eq_refl) as [Hf Hf'].
    split.
    + unfold Mem.step. rewrite mem_route_put, Hk.
      rewrite (mem_update_accepted _ _ _ _ _ Hu Hf Hv).
      unfold s'. rewrite Hi in *. rewrite (map_update_one _ _ _ _ _ Hu).
      reflexivity.
    + unfold Mem.step. rewrite mem_route_get, Hk, mem_readOne.
      unfold s'. cbn [Mem.items fst]. rewrite Hf'. reflexivity.
  - intros Hi Hu db'.
    destruct (Hfind _ (Sql.stored (itemOf (id x) data)) Hi Hu eq_refl)
      as [Hf Hf'].
    split.
    + unfold Sql.step. rewrite sql_route_put, Hk.
      rewrite (sql_update_accepted _ _ _ _ _ Hf Hv).
      unfold db'. rewrite Hi in *.
      rewrite (map_replace_one (fun it => Sql.stored (itemOf (id it) data))
                 _ _ _ Hu).
      reflexivity.
    + unfold Sql.step. rewrite sql_route_get, Hk, sql_readOne.
      unfold db'. cbn [Sql.rows fst]. rewrite Hf'. reflexivity.
Qed.

Lemma put_in_place_witness :
  snd (Mem.step (onItem "PUT" (lit "2") widgetBody) (Mem.mkStore threeItems 4))
  = Mem.mkStore [ mkItem 1 (lit "a") (lit "x");
                  mkItem 2 (lit "Widget") (lit "A thing");
                  mkItem 3 (lit "c") (lit "z") ] 4.
Proof.
  assert (NoDup (map id threeItems)) as Hu.
  { simpl. repeat constructor; simpl; intuition discriminate. }
  destruct (proj1 (put_replaces_in_place (Mem.mkStore threeItems 4) Sql.empty
                     (lit "2") (mkItem 2 (lit "b") (lit "y"))
                     [mkItem 1 (lit "a") (lit "x")]
                     [mkItem 3 (lit "c") (lit "z")]
                     widgetBody
                     (Some (JObj [ (lit "name", JStr (lit " Widget "));
                                   (lit "description", JStr (lit "A thing")) ]))
                     eq_refl eq_refl) eq_refl Hu) as [Hstep _].
  rewrite Hstep. reflexivity.
Defined.

(** X10: a POST /items, or a PUT on a stored id, whose body is non-empty
    text that JSON.parse rejects is answered 400 {error:"Invalid JSON"} and
    the store is left as it was, on both servers. *)
Theorem unparsable_body_is_invalid_json
  (s : Mem.store) (db : Sql.database) (rest : jsstring) (k : Z) :
  parseInt (idSegment rest) = Some k ->
  Mem.step (postItems Unparsable) s = (invalidJson, s) /\
  Sql.step (postItems Unparsable) db = (invalidJson, db) /\
  (In k (map id (Mem.items s)) ->
   Mem.step (onItem "PUT" rest Unparsable) s = (invalidJson, s)) /\
  (In k (map id (Sql.rows db)) ->
   Sql.step (onItem "PUT" rest Unparsable) db = (invalidJson, db)).
Proof.
  intros Hk. split; [reflexivity|]. split; [reflexivity|]. split; intros Hin.
  - unfold Mem.step. rewrite mem_route_put, Hk.
    destruct (find_present _ _ Hin) as [x Hx].
    exact (mem_update_rejected s k Unparsable x invalidJson Hx eq_refl).
  - unfold Sql.step. rewrite sql_route_put, Hk.
    destruct (find_present _ _ Hin) as [x Hx].
    exact (sql_update_rejected db k Unparsable x invalidJson Hx eq_refl).
Qed.

Lemma unparsable_witness :
  Mem.step (onItem "PUT" (lit "2") Unparsable) (Mem.mkStore threeItems 4)
  = (invalidJson, Mem.mkStore threeItems 4).
Proof.
  apply (proj1 (proj2 (proj2
    (unparsable_body_is_invalid_json (Mem.mkStore threeItems 4) Sql.empty
       (lit "2") 2 eq_refl)))).
  simpl. auto.
Defined.

(** ** Validation, message by message *)

Lemma get_non_object v key :
  (forall fields, v <> JObj fields) -> get (Some v) key = None.
Proof. destruct v; try reflexivity. intros H. exfalso. eapply H. reflexivity. Qed.

(** X11: a body that is JSON for a truthy value other than an object (a
    non-zero number, true, a non-empty string, an array) has neither field:
    POST /items answers 400 "Validation failed" with exactly the two
    "required" messages, name first, and leaves the store as it was. *)
Theorem non_object_body_lacks_both_fields
  (v : json) (s : Mem.store) (db : Sql.database) :
  truthy (Some v) = true ->
  (forall fields, v <> JObj fields) ->
  Mem.step (postItems (Json v)) s =
    (reply 400 (validationJson
       [ "Name is required and must be a non-empty string";
         "Description is required and must be a non-empty string" ]), s) /\
  Sql.step (postItems (Json v)) db =
    (reply 400 (validationJson
       [ "Name is required and must be a non-empty string";
         "Description is required and must be a non-empty string" ]), db).
Proof.
  intros Ht Ho.
  assert (validated (Json v) =
          inl (reply 400 (validationJson
            [ "Name is required and must be a non-empty string";
              "Description is required and must be a non-empty string" ])))
    as Hv.
  { unfold validated, parseBody, validateItemInput. rewrite Ht.
    rewrite !(get_non_object v _ Ho). reflexivity. }
  unfold Mem.step, Sql.step. rewrite mem_route_post, sql_route_post.
  rewrite (mem_create_rejected _ _ _ Hv), (sql_create_rejected _ _ _ Hv). auto.
Qed.

Lemma non_object_witness :
  fst (Mem.step (postItems (Json (JArr [JNum 1]))) Mem.initial) =
    reply 400 (validationJson
       [ "Name is required and must be a non-empty string";
         "Description is required and must be a non-empty string" ]).
Proof.
  refine (f_equal fst (proj1 (non_object_body_lacks_both_fields
            (JArr [JNum 1]) Mem.initial Sql.empty eq_refl _))).
  intros fields H. discriminate H.
Defined.

Lemma required_iff v :
  negb (truthy v) || negb (isString v) || blank v = true <-> ~ acceptableText v.
Proof.
  unfold acceptableText.
  destruct v as [[| b | n | t | l | f]|];
    try (simpl; rewrite ?orb_true_r; split; [intros _ [t [H _]]; discriminate | reflexivity]).
  unfold blank. cbn [truthy isString strOf negb orb].
  rewrite orb_false_r, negb_involutive.
  destruct t as [|c t].
  - simpl. split; [intros _ [t [H L]] | reflexivity].
    inversion H. subst. simpl in L. lia.
  - cbn [eqb orb]. rewrite Nat.eqb_eq. split.
    + intros E [t' [H L]]. inversion H. subst. lia.
    + intros H. destruct (List.length (trim (c :: t))) eqn:E; [reflexivity|].
      exfalso. apply H. exists (c :: t). split; [reflexivity | lia].
Qed.

Lemma overlong_iff limit v :
  truthy v && isString v && lengthOver v limit = true <-> overlong limit v.
Proof.
  unfold overlong.
  destruct v as [[| b | n | t | l | f]|];
    try (simpl; rewrite ?andb_false_r; split; [discriminate | intros [t [H _]]; discriminate]).
  unfold lengthOver. cbn [truthy isString strOf andb].
  rewrite andb_true_r, andb_true_iff, Nat.ltb_lt. split.
  - intros [_ H]. exists t. auto.
  - intros [t' [H L]]. inversion H. subst. split; [|exact L].
    destruct t'; [simpl in L; lia | reflexivity].
Qed.

Lemma in_single_if (c : bool) (m m' : string) :
  In m (if c then [m'] else []) <-> c = true /\ m' = m.
Proof. destruct c; simpl; intuition discriminate. Qed.

(** X12: validation of an object body, message by message.  Each of the
    four field messages is among the details exactly when its own rule is
    broken, whatever the other field holds: "... is required ..." when the
    field is missing, not a string, or blank after trimming; "... must be N
    characters or less" when it is a string of more than N characters as
    sent.  "Request body is required" never accompanies them, and the
    input is valid exactly when there is no message. *)
Theorem each_message_reports_its_rule (fields : list (jsstring * json)) :
  let v := validateItemInput (Some (JObj fields)) in
  (In "Name is required and must be a non-empty string" (errors v)
   <-> ~ acceptableText (lookup (lit "name") fields)) /\
  (In "Description is required and must be a non-empty string" (errors v)
   <-> ~ acceptableText (lookup (lit "description") fields)) /\
  (In "Name must be 100 characters or less" (errors v)
   <-> overlong 100 (lookup (lit "name") fields)) /\
  (In "Description must be 500 characters or less" (errors v)
   <-> overlong 500 (lookup (lit "description") fields)) /\
  ~ In "Request body is required" (errors v) /\
  (isValid v = true <-> errors v = []).
Proof.
  intros v.
  assert (errors v =
    (if negb (truthy (lookup (lit "name") fields))
        || negb (isString (lookup (lit "name") fields))
        || blank (lookup (lit "name") fields)
     then ["Name is required and must be a non-empty string"] else [])
    ++ (if negb (truthy (lookup (lit "description") fields))
           || negb (isString (lookup (lit "description") fields))
           || blank (lookup (lit "description") fields)
        then ["Description is required and must be a non-empty string"] else [])
    ++ (if truthy (lookup (lit "name") fields)
           && isString (lookup (lit "name") fields)
           && lengthOver (lookup (lit "name") fields) 100
        then ["Name must be 100 characters or less"] else [])
    ++ (if truthy (lookup (lit "description") fields)
           && isString (lookup (lit "description") fields)
           && lengthOver (lookup (lit "description") fields) 500
        then ["Description must be 500 characters or less"] else [])) as E
    by reflexivity.
  rewrite <- (required_iff (lookup (lit "name") fields)).
  rewrite <- (required_iff (lookup (lit "description") fields)).
  rewrite <- (overlong_iff 100 (lookup (lit "name") fields)).
  rewrite <- (overlong_iff 500 (lookup (lit "description") fields)).
  split; [|split; [|split; [|split; [|split]]]].
  - rewrite E, !in_app_iff, !in_single_if. intuition discriminate.
  - rewrite E, !in_app_iff, !in_single_if. intuition discriminate.
  - rewrite E, !in_app_iff, !in_single_if. intuition discriminate.
  - rewrite E, !in_app_iff, !in_single_if. intuition discriminate.
  - rewrite E, !in_app_iff, !in_single_if. intuition discriminate.
  - unfold v. rewrite isValid_errors, Nat.eqb_eq. apply length_zero_iff_nil.
Qed.

(** ** Text held as UTF-8 *)

Lemma surrogate_not_space c :
  isHigh c = true \/ isLow c = true -> isWhiteSpace c = false.
Proof.
  intros H. destruct (isWhiteSpace c) eqn:E; [exfalso | reflexivity].
  unfold isWhiteSpace in E. apply orb_true_iff in E. destruct E as [E|E].
  - apply existsb_exists in E. destruct E as [x [Hin Hx]].
    apply N.eqb_eq in Hx. subst x. simpl in Hin.
    repeat (destruct Hin as [Hin|Hin];
            [subst c; destruct H; discriminate|]).
    exact Hin.
  - apply andb_true_iff in E. destruct E as [E1 E2].
    apply N.leb_le in E1, E2. unfold isHigh, isLow in H.
    destruct H as [H|H]; apply andb_true_iff in H; destruct H as [H1 H2];
      apply N.leb_le in H1, H2; lia.
Qed.

Lemma toWellFormed_pointwise n : forall s,
  (List.length s <= n)%nat -> Forall2 sameKind s (toWellFormed s).
Proof.
  induction n as [|n IH]; intros s Hn.
  - destruct s; [constructor | simpl in Hn; lia].
  - destruct s as [|c t]; [constructor|]. simpl in Hn.
    assert (Forall2 sameKind t (toWellFormed t)) as Ht by (apply IH; lia).
    cbn [toWellFormed]. destruct (isHigh c) eqn:Hh.
    + destruct t as [|d t'].
      * constructor; [|constructor]. unfold sameKind.
        rewrite (surrogate_not_space c) by auto. reflexivity.
      * destruct (isLow d).
        -- constructor; [reflexivity|]. constructor; [reflexivity|].
           apply IH. simpl in Hn. lia.
        -- constructor; [|exact Ht]. unfold sameKind.
           rewrite (surrogate_not_space c) by auto. reflexivity.
    + destruct (isLow c) eqn:Hl.
      * constructor; [|exact Ht]. unfold sameKind.
        rewrite (surrogate_not_space c) by auto. reflexivity.
      * constructor; [reflexivity | exact Ht].
Qed.

Lemma sameKind_length l l' :
  Forall2 sameKind l l' -> List.length l' = List.length l.
Proof. induction 1; simpl; congruence. Qed.

Lemma sameKind_rev l l' :
  Forall2 sameKind l l' -> Forall2 sameKind (rev l) (rev l').
Proof.
  induction 1 as [|a b l l' H _ IH]; simpl; [constructor|].
  apply Forall2_app; [exact IH | constructor; [exact H | constructor]].
Qed.

Lemma sameKind_noLead l l' : Forall2 sameKind l l' -> noLead l -> noLead l'.
Proof.
  destruct 1 as [|a b l l' H _]; simpl; [auto|].
  unfold sameKind in H. congruence.
Qed.

Lemma trimmed_iff s : trimmed s <-> noLead s /\ noLead (rev s).
Proof.
  unfold trimmed. split.
  - intros H. rewrite <- H. split.
    + unfold trim. apply trimEnd_noLead, trimStart_noLead.
    + unfold trim, trimEnd. rewrite rev_involutive. apply trimStart_noLead.
  - intros [H1 H2]. unfold trim. rewrite (trimStart_fixed _ H1).
    apply trimEnd_fixed, H2.
Qed.

Lemma toWellFormed_length s :
  List.length (toWellFormed s) = List.length s.
Proof. apply sameKind_length, (toWellFormed_pointwise (List.length s)). lia. Qed.

Lemma toWellFormed_trimmed s : trimmed s -> trimmed (toWellFormed s).
Proof.
  pose proof (toWellFormed_pointwise (List.length s) s ltac:(lia)) as P.
  rewrite !trimmed_iff. intros [H1 H2]. split.
  - apply (sameKind_noLead _ _ P H1).
  - apply (sameKind_noLead _ _ (sameKind_rev _ _ P) H2).
Qed.

Lemma stored_wellFormed it : wellFormed it -> wellFormed (Sql.stored it).
Proof.
  intros [Hi [Tn [Ln [Td Ld]]]]. unfold wellFormed, Sql.stored. simpl.
  rewrite !toWellFormed_length.
  repeat split; try apply toWellFormed_trimmed; try assumption; lia.
Qed.

(** ** The shape of stored items *)

Lemma accepted_fields_fit data :
  isValid (validateItemInput data) = true ->
  strOf (get data (lit "name")) = Some (fieldText data "name") ->
  strOf (get data (lit "description")) = Some (fieldText data "description") ->
  fits 100 (fieldText data "name") /\ fits 500 (fieldText data "description").
Proof.
  intros Hv Hn Hd.
  destruct data as [[| | | | |fields]|]; try discriminate Hn.
  apply (isValid_strings fields).
  - unfold get in Hn. destruct (lookup (lit "name") fields) as [[]|];
      try discriminate Hn. inversion Hn. reflexivity.
  - unfold get in Hd. destruct (lookup (lit "description") fields) as [[]|];
      try discriminate Hd. inversion Hd. reflexivity.
  - exact Hv.
Qed.

Lemma itemOf_wellFormed k b data :
  1 <= k -> validated b = inr data -> wellFormed (itemOf k data).
Proof.
  intros Hk Hv. destruct (validated_inr _ _ Hv) as [Hi [Hn Hd]].
  destruct (accepted_fields_fit _ Hi Hn Hd) as [[N1 N2] [D1 D2]].
  pose proof (trim_length (fieldText data "name")).
  pose proof (trim_length (fieldText data "description")).
  unfold wellFormed, itemOf. simpl.
  repeat split; try apply trim_trimmed; lia.
Qed.

Lemma step_wellFormed req s :
  consistent s -> Forall wellFormed (Mem.items s) ->
  Forall wellFormed (Mem.items (snd (Mem.step req s))).
Proof.
  intros Hc Hw. unfold Mem.step.
  destruct (routes_alike req) as
    [[r [_ [-> _]]]|[[-> _]|[[k [-> _]]|[[-> _]|[[k [-> _]]|[k [-> _]]]]]]].
  - exact Hw.
  - exact Hw.
  - destruct k as [k|]; [rewrite mem_readOne|]; exact Hw.
  - destruct (validated (body req)) as [r|data] eqn:Hv.
    + rewrite (mem_create_rejected _ _ _ Hv). exact Hw.
    + rewrite (mem_create_accepted _ _ _ Hv). simpl.
      apply Forall_app. split; [exact Hw|]. constructor; [|constructor].
      apply (itemOf_wellFormed _ _ _ (increasing_le _ _ _ Hc) Hv).
  - destruct k as [k|]; [|exact Hw].
    destruct (find (hasId k) (Mem.items s)) as [x|] eqn:Hf.
    + destruct (validated (body req)) as [r|data] eqn:Hv.
      * rewrite (mem_update_rejected _ _ _ _ _ Hf Hv). exact Hw.
      * rewrite (mem_update_accepted _ _ _ _ _ (consistent_unique _ Hc) Hf Hv).
        simpl. apply Forall_map. eapply Forall_impl; [|exact Hw].
        intros it Hit. destruct (hasId k it); [|exact Hit].
        destruct (itemOf_wellFormed 1 _ _ ltac:(lia) Hv) as [_ Hrest].
        split; [apply Hit | exact Hrest].
    + rewrite (mem_update_missing _ _ _ Hf). exact Hw.
  - destruct k as [k|]; [|exact Hw].
    destruct (find (hasId k) (Mem.items s)) as [x|] eqn:Hf.
    + rewrite (mem_remove_present _ _ _ (consistent_unique _ Hc) Hf).
      simpl. apply Forall_forall. intros it Hit.
      apply filter_In in Hit. rewrite Forall_forall in Hw. apply Hw, Hit.
    + rewrite (mem_remove_missing _ _ Hf). exact Hw.
Qed.

Lemma serve_wellFormed reqs : forall s,
  consistent s -> Forall wellFormed (Mem.items s) ->
  Forall wellFormed (Mem.items (snd (serve Mem.step reqs s))).
Proof.
  induction reqs as [|req reqs IH]; intros s Hc Hw; simpl; [exact Hw|].
  pose proof (step_consistent req s Hc) as Hc1.
  pose proof (step_wellFormed req s Hc Hw) as Hw1.
  destruct (Mem.step req s) as [r s1]. simpl in Hc1, Hw1.
  specialize (IH s1 Hc1 Hw1).
  destruct (serve Mem.step reqs s1). exact IH.
Qed.

Lemma reached_wellFormed reqs : Forall wellFormed (Mem.items (reached reqs)).
Proof.
  apply serve_wellFormed; [unfold consistent; simpl; lia | constructor].
Qed.

Lemma reached_rows reqs :
  Sql.rows (reachedSql reqs) = map Sql.stored (Mem.items (reached reqs)).
Proof. apply (tracks_reached reqs). Qed.

(** X13: the data-model invariant.  In every state reached from the empty
    store by requests, every stored item of either server has a positive
    id, and a name and a description that carry no white space at either
    end, are not empty, and have at most 100 and 500 characters. *)
Theorem stored_items_are_well_formed (reqs : list request) (it : Item) :
  (In it (Mem.items (reached reqs)) -> wellFormed it) /\
  (In it (Sql.rows (reachedSql reqs)) -> wellFormed it).
Proof.
  pose proof (reached_wellFormed reqs) as H. rewrite Forall_forall in H.
  split; [apply H|].
  rewrite reached_rows, in_map_iff. intros [x [<- Hx]].
  apply stored_wellFormed, H, Hx.
Qed.

Lemma stored_well_formed_witness :
  wellFormed (mkItem 1 (lit "Widget") (lit "A thing")).
Proof.
  apply (proj1 (stored_items_are_well_formed [postItems widgetBody]
                  (mkItem 1 (lit "Widget") (lit "A thing")))).
  simpl. left. reflexivity.
Defined.




(** ** Sequences of requests *)

Lemma serve_creates bodies : forall datas s,
  Forall2 (fun b d => validated b = inr d) bodies datas ->
  serve Mem.step (map postItems bodies) s =
    (map (fun it => reply 201 (itemJson it)) (createdFrom (Mem.nextId s) datas),
     Mem.mkStore (Mem.items s ++ createdFrom (Mem.nextId s) datas)
                 (Mem.nextId s + Z.of_nat (List.length datas))).
Proof.
  induction bodies as [|b bodies IH]; intros datas s H; inversion H; subst.
  - simpl. rewrite app_nil_r, Z.add_0_r. destruct s; reflexivity.
  - cbn [map serve]. unfold Mem.step at 1.
    rewrite mem_route_post, (mem_create_accepted _ _ _ H2).
    rewrite (IH _ _ H4). cbn [Mem.items Mem.nextId createdFrom map List.length].
    rewrite <- app_assoc. simpl app. do 2 f_equal. lia.
Qed.

Lemma similar_created rs1 rs2 :
  Forall2 similar rs1 rs2 -> Forall (fun r => status r = 201) rs1 -> rs1 = rs2.
Proof.
  induction 1 as [|r1 r2 rs1 rs2 [_ [_ H]] _ IH]; intros Hs; [reflexivity|].
  inversion Hs as [|? ? H1 H2]. subst. rewrite (H H1), (IH H2). reflexivity.
Qed.

(** X15: creating several items in a row.  From any in-memory store, a
    sequence of POST /items with accepted bodies answers 201 with the
    items built from these bodies, numbered consecutively from the next id,
    and appends exactly these items, in that order; GET /items then lists
    the old items followed by them.  From the empty stores the relational
    server gives the same answers, and its rows are these items as UTF-8
    text holds them. *)
Theorem consecutive_creates_append_in_order
  (bodies : list payload) (datas : list value) (s : Mem.store) :
  Forall2 (fun b d => validated b = inr d) bodies datas ->
  serve Mem.step (map postItems bodies) s =
    (map (fun it => reply 201 (itemJson it)) (createdFrom (Mem.nextId s) datas),
     Mem.mkStore (Mem.items s ++ createdFrom (Mem.nextId s) datas)
                 (Mem.nextId s + Z.of_nat (List.length datas))) /\
  fst (Mem.step getItems (snd (serve Mem.step (map postItems bodies) s))) =
    reply 200 (JArr (map itemJson (Mem.items s ++ createdFrom (Mem.nextId s) datas))) /\
  fst (serve Sql.step (map postItems bodies) Sql.empty) =
    map (fun it => reply 201 (itemJson it)) (createdFrom 1 datas) /\
  Sql.rows (snd (serve Sql.step (map postItems bodies) Sql.empty)) =
    map Sql.stored (createdFrom 1 datas).
Proof.
  intros H. pose proof (serve_creates bodies datas s H) as Hs.
  split; [exact Hs|]. split; [rewrite Hs; reflexivity|].
  destruct (serve_tracks (map postItems bodies) _ _ tracks_initial)
    as [Hr [Hrows _]].
  pose proof (serve_creates bodies datas Mem.initial H) as Hi.
  rewrite Hi in Hr, Hrows. cbn [fst snd Mem.items Mem.initial app] in Hr, Hrows.
  split; [|exact Hrows].
  symmetry. apply (similar_created _ _ Hr).
  apply Forall_forall. intros r Hin. apply in_map_iff in Hin.
  destruct Hin as [it [<- _]]. reflexivity.
Qed.

Lemma consecutive_creates_witness :
  Mem.items (snd (serve Mem.step (map postItems [widgetBody; widgetBody])
                        (Mem.mkStore threeItems 4))) =
    threeItems ++ [ mkItem 4 (lit "Widget") (lit "A thing");
                    mkItem 5 (lit "Widget") (lit "A thing") ].
Proof.
  assert (Forall2 (fun b d => validated b = inr d)
            [widgetBody; widgetBody]
            [ Some (JObj [ (lit "name", JStr (lit " Widget "));
                           (lit "description", JStr (lit "A thing")) ]);
              Some (JObj [ (lit "name", JStr (lit " Widget "));
                           (lit "description", JStr (lit "A thing")) ]) ])
    as HF by (repeat constructor).
  rewrite (proj1 (consecutive_creates_append_in_order _ _
                    (Mem.mkStore threeItems 4) HF)).
  reflexivity.
Defined.

Lemma replay_related es : forall s db,
  related s db ->
  Forall cleanEvent es ->
  fst (replay memEvent es s) = fst (replay sqlEvent es db) /\
  related (snd (replay memEvent es s)) (snd (replay sqlEvent es db)).
Proof.
  induction es as [|e es IH]; intros s db R Hclean; cbn [replay]; [auto|].
  inversion Hclean as [|? ? He Hrest]. subst.
  destruct e as [req|]; cbn [memEvent sqlEvent].
  - destruct (step_related req s db R He) as [H1 H2].
    destruct (Mem.step req s) as [r1 s1], (Sql.step req db) as [r2 db1].
    cbn [fst snd] in H1, H2. specialize (IH s1 db1 H2 Hrest).
    destruct (replay memEvent es s1), (replay sqlEvent es db1).
    cbn [fst snd] in *. destruct IH as [-> IH]. subst. auto.
  - change (Mem.resetMyServerData s) with Mem.initial.
    change (match Sql.resetMyServerData (Some db) with
            | Some db' => db'
            | None => db
            end) with Sql.empty.
    specialize (IH Mem.initial Sql.empty related_initial Hrest).
    destruct (replay memEvent es Mem.initial), (replay sqlEvent es Sql.empty).
    exact IH.
Qed.

(** X16: the two servers stay interchangeable under test isolation: for
    every sequence of requests and calls of [resetMyServerData], started on
    the empty stores and with a database that never throws, both servers
    give the same sequence of responses, provided the trimmed name and
    description of every accepted body are free of unpaired surrogates. *)
Theorem handlers_equivalent_across_resets (es : list event) :
  Forall cleanEvent es ->
  fst (replay memEvent es Mem.initial) = fst (replay sqlEvent es Sql.empty).
Proof. intros H. apply replay_related; [apply related_initial | exact H]. Qed.

Lemma across_resets_witness :
  fst (replay memEvent [Request (postItems widgetBody); Reset; Request getItems]
         Mem.initial) =
  fst (replay sqlEvent [Request (postItems widgetBody); Reset; Request getItems]
         Sql.empty).
Proof.
  apply (handlers_equivalent_across_resets
           [Request (postItems widgetBody); Reset; Request getItems]).
  apply Forall_cons; [|apply Forall_cons; [exact I|apply Forall_cons; [|apply Forall_nil]]];
    intros data H; vm_compute in H; inversion H; split; reflexivity.
Defined.

Lemma run_broken (m : prog Sql.sqlE response) : forall db,
  snd (run brokenExec m db) = db.
Proof.
  induction m as [r|X e k IH]; intros db; simpl; [reflexivity|].
  destruct e; simpl; apply IH.
Qed.

(** X17: a database whose every call throws.  The relational server then
    answers 500 {error:"Internal server error"} to GET /items, to every
    id route whose id parses (for PUT whatever the body is, since the
    lookup comes before the body is parsed), and to a POST with an accepted
    body; a POST with a rejected body still gets its 400, because
    validation comes before the insert. *)
Theorem database_failure_is_500 (db : Sql.database) :
  fst (run brokenExec (Sql.handler getItems) db) = internalError /\
  (forall m rest b k,
     idMethod m -> parseInt (idSegment rest) = Some k ->
     fst (run brokenExec (Sql.handler (onItem m rest b)) db) = internalError) /\
  (forall b data,
     validated b = inr data ->
     fst (run brokenExec (Sql.handler (postItems b)) db) = internalError) /\
  (forall b r,
     validated b = inl r ->
     fst (run brokenExec (Sql.handler (postItems b)) db) = r) /\
  (forall req, snd (run brokenExec (Sql.handler req) db) = db) /\
  status internalError = 500.
Proof.
  split; [reflexivity|]. split; [|split; [|split; [|split]]].
  - intros m rest b k Hm Hk. destruct Hm as [->|[->| ->]].
    + rewrite sql_route_get, Hk. reflexivity.
    + rewrite sql_route_put, Hk. reflexivity.
    + rewrite sql_route_delete, Hk. reflexivity.
  - intros b data Hv. rewrite sql_route_post. unfold Sql.create. rewrite Hv.
    destruct (validated_inr _ _ Hv) as [_ [-> ->]]. reflexivity.
  - intros b r Hv. rewrite sql_route_post. unfold Sql.create. rewrite Hv.
    reflexivity.
  - intros req. apply run_broken.
  - reflexivity.
Qed.

(** X18: ids that were never assigned.  In every state reached from the
    empty store, an id route (GET, PUT with any body, DELETE) whose id
    parses to a number below 1, or to the next id or beyond, is answered
    404 {error:"Item not found"} and leaves the store as it was, on both
    servers. *)
Theorem unassigned_ids_are_not_found
  (reqs : list request) (m : string) (rest : jsstring) (b : payload) (k : Z) :
  idMethod m ->
  parseInt (idSegment rest) = Some k ->
  k < 1 \/ Mem.nextId (reached reqs) <= k ->
  Mem.step (onItem m rest b) (reached reqs) = (itemNotFound, reached reqs) /\
  Sql.step (onItem m rest b) (reachedSql reqs) = (itemNotFound, reachedSql reqs).
Proof.
  intros Hm Hk Hrange.
  pose proof (increasing_notin _ _ _ k (consistent_reached reqs) Hrange) as Hn.
  pose proof (find_none_notin _ _ Hn) as Hf.
  assert (find (hasId k) (Sql.rows (reachedSql reqs)) = None) as Hf'
    by (rewrite reached_rows, find_stored, Hf; reflexivity).
  unfold Mem.step, Sql.step. destruct Hm as [->|[->| ->]].
  - rewrite mem_route_get, sql_route_get, Hk, mem_readOne, sql_readOne.
    rewrite Hf, Hf'. auto.
  - rewrite mem_route_put, sql_route_put, Hk.
    rewrite (mem_update_missing _ _ _ Hf), (sql_update_missing _ _ _ Hf'). auto.
  - rewrite mem_route_delete, sql_route_delete, Hk.
    rewrite (mem_remove_missing _ _ Hf), (sql_remove_missing _ _ Hf'). auto.
Qed.

Lemma unassigned_ids_witness :
  Mem.step (onItem "DELETE" (lit "-1") Empty) (reached [postItems widgetBody])
  = (itemNotFound, reached [postItems widgetBody]).
Proof.
  refine (proj1 (unassigned_ids_are_not_found [postItems widgetBody] "DELETE"
                   (lit "-1") Empty (-1) (or_intror (or_intror eq_refl))
                   eq_refl _)).
  left. lia.
Defined.

Lemma replace_pushed (f : Item -> Item) k l x :
  ~ In k (map id l) -> id x = k ->
  map (fun it => if hasId k it then f it else it) (l ++ [x]) = l ++ [f x].
Proof.
  intros Hn Hk. rewrite map_app, (map_replace_notin _ _ _ Hn). simpl.
  unfold hasId. rewrite Hk, Z.eqb_refl. reflexivity.
Qed.

Lemma filter_pushed k l x :
  ~ In k (map id l) -> id x = k ->
  filter (fun it => negb (hasId k it)) (l ++ [x]) = l.
Proof.
  intros Hn Hk. rewrite filter_app, (filter_notin _ _ Hn). simpl.
  unfold hasId. rewrite Hk, Z.eqb_refl. simpl. apply app_nil_r.
Qed.

Lemma update_pushed k l x n d :
  ~ In k (map id l) -> id x = k ->
  map (fun it => if hasId k it then mkItem (id it) n d else it) (l ++ [x])
  = l ++ [mkItem k n d].
Proof.
  intros Hn Hk. rewrite map_app, (map_update_notin _ _ _ _ Hn). simpl.
  unfold hasId. rewrite Hk, Z.eqb_refl. reflexivity.
Qed.

Lemma nodup_pushed (k : Z) l : NoDup l -> ~ In k l -> NoDup (l ++ [k]).
Proof.
  induction l as [|y l IH]; simpl; intros Hu Hn.
  - constructor; [tauto | constructor].
  - inversion Hu as [|? ? Hy Hl]. subst. constructor.
    + rewrite in_app_iff. simpl. intros [H|[H|[]]]; [tauto|].
      apply Hn. left. symmetry. exact H.
    + apply IH; tauto.
Qed.

(** X19: the life of one item.  In every state reached from the empty
    store, creating an item, reading it, updating it, reading it again,
    deleting it and reading it once more (the id written in decimal in
    the path) answers 201, 200, 200, 200, 200, 404 with the created item,
    then the updated item of the same id, and leaves the stored items as
    they were before, with the next id advanced by one.  The relational
    server gives the same statuses; its 201 and its PUT answer carry the
    same items, and its two reads and its DELETE carry them as UTF-8
    text holds them (an unpaired surrogate read back as U+FFFD). *)
Theorem create_update_delete_cycle
  (reqs : list request) (b1 b2 : payload) (d1 d2 : value) :
  validated b1 = inr d1 ->
  validated b2 = inr d2 ->
  serve Mem.step
    [ postItems b1;
      onItem "GET" (decimal (Mem.nextId (reached reqs))) Empty;
      onItem "PUT" (decimal (Mem.nextId (reached reqs))) b2;
      onItem "GET" (decimal (Mem.nextId (reached reqs))) Empty;
      onItem "DELETE" (decimal (Mem.nextId (reached reqs))) Empty;
      onItem "GET" (decimal (Mem.nextId (reached reqs))) Empty ]
    (reached reqs) =
  ([ reply 201 (itemJson (itemOf (Mem.nextId (reached reqs)) d1));
     reply 200 (itemJson (itemOf (Mem.nextId (reached reqs)) d1));
     reply 200 (itemJson (itemOf (Mem.nextId (reached reqs)) d2));
     reply 200 (itemJson (itemOf (Mem.nextId (reached reqs)) d2));
     reply 200 (deletedJson (itemOf (Mem.nextId (reached reqs)) d2));
     itemNotFound ],
   Mem.mkStore (Mem.items (reached reqs)) (Mem.nextId (reached reqs) + 1)) /\
  serve Sql.step
    [ postItems b1;
      onItem "GET" (decimal (Mem.nextId (reached reqs))) Empty;
      onItem "PUT" (decimal (Mem.nextId (reached reqs))) b2;
      onItem "GET" (decimal (Mem.nextId (reached reqs))) Empty;
      onItem "DELETE" (decimal (Mem.nextId (reached reqs))) Empty;
      onItem "GET" (decimal (Mem.nextId (reached reqs))) Empty ]
    (reachedSql reqs) =
  ([ reply 201 (itemJson (itemOf (Mem.nextId (reached reqs)) d1));
     reply 200 (itemJson (Sql.stored (itemOf (Mem.nextId (reached reqs)) d1)));
     reply 200 (itemJson (itemOf (Mem.nextId (reached reqs)) d2));
     reply 200 (itemJson (Sql.stored (itemOf (Mem.nextId (reached reqs)) d2)));
     reply 200 (deletedJson (Sql.stored (itemOf (Mem.nextId (reached reqs)) d2)));
     itemNotFound ],
   Sql.mkDatabase (Sql.rows (reachedSql reqs)) (Mem.nextId (reached reqs))).
Proof.
  intros H1 H2.
  pose proof (consistent_reached reqs) as Hc.
  pose proof (tracks_reached reqs) as Htr.
  pose proof (tracks_nextRowid _ _ Htr) as Hnext.
  pose proof (reached_rows reqs) as Hrows.
  set (s := reached reqs) in *. set (k := Mem.nextId s) in *.
  set (db := reachedSql reqs) in *.
  pose proof (increasing_le _ _ _ Hc) as Hk. fold k in Hk.
  assert (~ In k (map id (Mem.items s))) as Hfresh
    by (eapply increasing_notin; [exact Hc | right; unfold k; lia]).
  assert (~ In k (map id (Sql.rows db))) as Hfresh'
    by (rewrite Hrows, map_id_stored; exact Hfresh).
  assert (parseInt (idSegment (decimal k)) = Some k) as Hp
    by (rewrite idSegment_decimal; apply parseInt_decimal; exact Hk).
  assert (forall n d, NoDup (map id (Mem.items s ++ [mkItem k n d]))) as Hu.
  { intros n d. rewrite map_app. simpl. apply nodup_pushed.
    - apply (consistent_unique _ Hc).
    - exact Hfresh. }
  split.
  - cbn [serve]. unfold Mem.step.
    rewrite mem_route_post, !mem_route_get, mem_route_put, mem_route_delete, Hp.
    rewrite (mem_create_accepted _ _ _ H1). fold k.
    rewrite mem_readOne. cbn [Mem.items Mem.nextId].
    rewrite (find_pushed k _ (itemOf k d1) Hfresh eq_refl).
    rewrite (mem_update_accepted
               (Mem.mkStore (Mem.items s ++ [itemOf k d1]) (k + 1))
               k b2 (itemOf k d1) d2 (Hu _ _)
               (find_pushed k _ (itemOf k d1) Hfresh eq_refl) H2).
    cbn [Mem.items Mem.nextId].
    rewrite (update_pushed k _ (itemOf k d1) _ _ Hfresh eq_refl).
    change (mkItem k (name (itemOf k d2)) (description (itemOf k d2)))
      with (itemOf k d2).
    rewrite mem_readOne. cbn [Mem.items Mem.nextId].
    rewrite (find_pushed k _ (itemOf k d2) Hfresh eq_refl).
    rewrite (mem_remove_present
               (Mem.mkStore (Mem.items s ++ [itemOf k d2]) (k + 1))
               k (itemOf k d2) (Hu _ _)
               (find_pushed k _ (itemOf k d2) Hfresh eq_refl)).
    cbn [Mem.items Mem.nextId].
    rewrite (filter_pushed k _ (itemOf k d2) Hfresh eq_refl).
    rewrite mem_readOne. cbn [Mem.items Mem.nextId].
    rewrite (find_none_notin _ _ Hfresh). reflexivity.
  - cbn [serve]. unfold Sql.step.
    rewrite sql_route_post, !sql_route_get, sql_route_put, sql_route_delete, Hp.
    rewrite (sql_create_accepted _ _ _ H1). rewrite Hnext.
    rewrite sql_readOne. cbn [Sql.rows Sql.sequence].
    rewrite (find_pushed k _ (Sql.stored (itemOf k d1)) Hfresh' eq_refl).
    rewrite (sql_update_accepted
               (Sql.mkDatabase (Sql.rows db ++ [Sql.stored (itemOf k d1)]) k)
               k b2 (Sql.stored (itemOf k d1)) d2
               (find_pushed k _ (Sql.stored (itemOf k d1)) Hfresh' eq_refl) H2).
    cbn [Sql.rows Sql.sequence].
    rewrite (replace_pushed (fun it => Sql.stored (itemOf (id it) d2))
               k _ (Sql.stored (itemOf k d1)) Hfresh' eq_refl).
    change (Sql.stored (itemOf (id (Sql.stored (itemOf k d1))) d2))
      with (Sql.stored (itemOf k d2)).
    rewrite sql_readOne. cbn [Sql.rows Sql.sequence].
    rewrite (find_pushed k _ (Sql.stored (itemOf k d2)) Hfresh' eq_refl).
    rewrite (sql_remove_present
               (Sql.mkDatabase (Sql.rows db ++ [Sql.stored (itemOf k d2)]) k)
               k (Sql.stored (itemOf k d2))
               (find_pushed k _ (Sql.stored (itemOf k d2)) Hfresh' eq_refl)).
    cbn [Sql.rows Sql.sequence].
    rewrite (filter_pushed k _ (Sql.stored (itemOf k d2)) Hfresh' eq_refl).
    rewrite sql_readOne. cbn [Sql.rows Sql.sequence].
    rewrite (find_none_notin _ _ Hfresh'). reflexivity.
Qed.

Lemma cycle_witness :
  snd (serve Mem.step
    [ postItems widgetBody;
      onItem "GET" (decimal (Mem.nextId (reached [postItems paddedBody]))) Empty;
      onItem "PUT" (decimal (Mem.nextId (reached [postItems paddedBody]))) widgetBody;
      onItem "GET" (decimal (Mem.nextId (reached [postItems paddedBody]))) Empty;
      onItem "DELETE" (decimal (Mem.nextId (reached [postItems paddedBody]))) Empty;
      onItem "GET" (decimal (Mem.nextId (reached [postItems paddedBody]))) Empty ]
    (reached [postItems paddedBody])) =
  Mem.mkStore [] 2.
Proof.
  rewrite (proj1 (create_update_delete_cycle [postItems paddedBody]
                    widgetBody widgetBody
                    (Some (JObj [ (lit "name", JStr (lit " Widget "));
                                  (lit "description", JStr (lit "A thing")) ]))
                    (Some (JObj [ (lit "name", JStr (lit " Widget "));
                                  (lit "description", JStr (lit "A thing")) ]))
                    eq_refl eq_refl)).
  reflexivity.
Defined.

(** X20: deleting twice.  In a store with pairwise distinct ids, once a
    DELETE on a stored id has answered 200, the same DELETE again is
    answered 404 {error:"Item not found"} and changes nothing more, on
    both servers. *)
Theorem second_delete_is_not_found
  (s : Mem.store) (db : Sql.database) (rest : jsstring) (k : Z) (b : payload) :
  parseInt (idSegment rest) = Some k ->
  (NoDup (map id (Mem.items s)) -> In k (map id (Mem.items s)) ->
   status (fst (Mem.step (onItem "DELETE" rest b) s)) = 200 /\
   Mem.step (onItem "DELETE" rest b) (snd (Mem.step (onItem "DELETE" rest b) s))
     = (itemNotFound, snd (Mem.step (onItem "DELETE" rest b) s))) /\
  (In k (map id (Sql.rows db)) ->
   status (fst (Sql.step (onItem "DELETE" rest b) db)) = 200 /\
   Sql.step (onItem "DELETE" rest b) (snd (Sql.step (onItem "DELETE" rest b) db))
     = (itemNotFound, snd (Sql.step (onItem "DELETE" rest b) db))).
Proof.
  intros Hk. split.
  - intros Hu Hin. destruct (find_present _ _ Hin) as [x Hx].
    unfold Mem.step. rewrite mem_route_delete, Hk.
    rewrite (mem_remove_present _ _ _ Hu Hx). cbn [fst snd].
    split; [reflexivity|].
    apply mem_remove_missing. cbn [Mem.items]. apply find_filtered.
  - intros Hin. destruct (find_present _ _ Hin) as [x Hx].
    unfold Sql.step. rewrite sql_route_delete, Hk.
    rewrite (sql_remove_present _ _ _ Hx). cbn [fst snd].
    split; [reflexivity|].
    apply sql_remove_missing. cbn [Sql.rows]. apply find_filtered.
Qed.

Lemma second_delete_witness :
  fst (Mem.step (onItem "DELETE" (lit "2") Empty)
         (snd (Mem.step (onItem "DELETE" (lit "2") Empty)
                        (Mem.mkStore threeItems 4)))) = itemNotFound.
Proof.
  assert (NoDup (map id threeItems)) as Hu.
  { simpl. repeat constructor; simpl; intuition discriminate. }
  assert (In 2 (map id threeItems)) as Hin by (simpl; auto).
  destruct (proj1 (second_delete_is_not_found (Mem.mkStore threeItems 4)
                     Sql.empty (lit "2") 2 Empty eq_refl) Hu Hin) as [_ H].
  rewrite H. reflexivity.
Defined.

(** X21: what GET /items lists can be fetched one by one.  In every state
    reached from the empty store, GET /items answers 200 with the stored
    items, and for every one of them GET /items/<id>, with its id written
    in decimal, answers 200 with exactly that item; this holds of each
    server on its own store (the array, respectively the rows). *)
Theorem listed_items_can_be_fetched (reqs : list request) (it : Item) :
  fst (Mem.step getItems (reached reqs)) =
    reply 200 (JArr (map itemJson (Mem.items (reached reqs)))) /\
  (In it (Mem.items (reached reqs)) ->
   Mem.step (onItem "GET" (decimal (id it)) Empty) (reached reqs)
     = (reply 200 (itemJson it), reached reqs)) /\
  fst (Sql.step getItems (reachedSql reqs)) =
    reply 200 (JArr (map itemJson (Sql.rows (reachedSql reqs)))) /\
  (In it (Sql.rows (reachedSql reqs)) ->
   Sql.step (onItem "GET" (decimal (id it)) Empty) (reachedSql reqs)
     = (reply 200 (itemJson it), reachedSql reqs)).
Proof.
  pose proof (consistent_unique _ (consistent_reached reqs)) as Hu.
  pose proof (reached_wellFormed reqs) as Hw. rewrite Forall_forall in Hw.
  pose proof (reached_rows reqs) as Hrows.
  split; [reflexivity|]. split; [|split].
  - intros Hin. destruct (Hw it Hin) as [Hid _].
    pose proof (find_unique (id it) _ it Hu Hin eq_refl) as Hf.
    assert (parseInt (idSegment (decimal (id it))) = Some (id it)) as Hp
      by (rewrite idSegment_decimal; apply parseInt_decimal; exact Hid).
    unfold Mem.step. rewrite mem_route_get, Hp, mem_readOne, Hf. reflexivity.
  - unfold Sql.step. rewrite sql_route_list, sql_listAll.
    rewrite (tracks_ordered _ _ (tracks_reached reqs)). reflexivity.
  - intros Hin.
    assert (NoDup (map id (Sql.rows (reachedSql reqs)))) as Hu'
      by (rewrite Hrows, map_id_stored; exact Hu).
    assert (1 <= id it) as Hid.
    { rewrite Hrows, in_map_iff in Hin. destruct Hin as [x [<- Hx]].
      apply (Hw x Hx). }
    pose proof (find_unique (id it) _ it Hu' Hin eq_refl) as Hf.
    assert (parseInt (idSegment (decimal (id it))) = Some (id it)) as Hp
      by (rewrite idSegment_decimal; apply parseInt_decimal; exact Hid).
    unfold Sql.step. rewrite sql_route_get, Hp, sql_readOne, Hf. reflexivity.
Qed.

Lemma listed_fetch_witness :
  Mem.step (onItem "GET" (decimal 1) Empty) (reached [postItems widgetBody])
    = (reply 200 (itemJson (mkItem 1 (lit "Widget") (lit "A thing"))),
       reached [postItems widgetBody]).
Proof.
  apply (proj1 (proj2 (listed_items_can_be_fetched [postItems widgetBody]
                         (mkItem 1 (lit "Widget") (lit "A thing"))))).
  left. reflexivity.
Defined.
